(** * HashLinkListRep and the standard prefix extractors

    A shallow embedding of [util/slice.cc] (the three standard
    [SliceTransform] implementations) and of [util/hash_linklist_rep.cc]
    (the bucketed, per-bucket sorted linked-list memtable index), with the
    properties of the index stated and proved on the embedding.

    Conventions.
    - A [Slice] (pointer + size) and an entry ([const char*] to an encoded
      record) are byte strings, written [string].
    - [size_t] values are [nat]: the code only compares them, takes a
      minimum and a remainder, so no wrap-around can occur.
    - Node pointers are [option nat]: [None] is [nullptr], [Some a] is the
      address of the [a]-th node handed out by the arena.
    - Code that can abort ([assert]), run into undefined behaviour (a
      dangling pointer, an out-of-range slot) or loop is in the [result]
      monad.  [assert] is the C macro: it disappears when [NDEBUG] is set. *)

From Stdlib Require Import ZArith Lia String Ascii.
From Stdlib Require Import DecimalString DecimalFacts DecimalNat Sorting.Sorted.
From Stdlib Require Import OrderedTypeEx.
From stdpp Require Import base list strings sorting.

Local Open Scope string_scope.
Local Open Scope list_scope.
Local Open Scope nat_scope.

(** ** Outcomes of a call *)

Inductive error : Type :=
| AssertionFailed   (* an [assert] of a debug build fired *)
| Undefined         (* undefined behaviour: bad pointer, bad slot, bad slice *)
| OutOfFuel.        (* the loop did not finish within the allotted steps *)

Inductive result (A : Type) : Type :=
| Ok (a : A)
| Fail (e : error).
Arguments Ok {A} a.
Arguments Fail {A} e.

#[global] Instance result_ret : MRet result := fun A a => Ok a.
#[global] Instance result_bind : MBind result := fun A B f m =>
  match m with
  | Ok a => f a
  | Fail e => Fail e
  end.

Definition is_Ok {A} (r : result A) : Prop := ∃ a, r = Ok a.

(** [assert(c)]: evaluated only in a debug build. *)
Definition assert_ (NDEBUG : bool) (c : result bool) : result unit :=
  if NDEBUG then Ok tt
  else b ← c; if (b : bool) then Ok tt else Fail AssertionFailed.

(** ** Slices and entries *)

Definition Slice : Type := string.
Definition Key : Type := string.

(** [Slice(src.data(), n)] for [n <= src.size()]: the first [n] bytes. *)
Definition Slice_prefix (src : Slice) (n : nat) : Slice := substring 0 n src.

(** Modelled from the spec: [ToString] of util/string_util.h is not among
    the sources; it renders a number in decimal (the [<k>] of the extractor
    names). *)
Definition ToString (n : nat) : string :=
  NilZero.string_of_uint (Nat.to_uint n).

(** ** util/slice.cc *)

Record SliceTransform : Type := {
  Name : string;
  Transform : Slice → result Slice;
  InDomain : Slice → bool;
  InRange : Slice → bool;
  SameResultWhenAppended : Slice → bool
}.

Section Transforms.
Variable NDEBUG : bool.

(** [assert(InDomain(src)); return Slice(src.data(), n);].  With the
    assertion compiled out a slice longer than [src] would be built: any
    use of it reads past the buffer. *)
Definition checked_prefix (in_domain : bool) (src : Slice) (n : nat)
  : result Slice :=
  _ ← assert_ NDEBUG (Ok in_domain);
  if decide (n ≤ String.length src) then Ok (Slice_prefix src n)
  else Fail Undefined.

Definition FixedPrefixTransform (prefix_len_ : nat) : SliceTransform := {|
  Name := "rocksdb.FixedPrefix." +:+ ToString prefix_len_;
  Transform src :=
    checked_prefix (prefix_len_ <=? String.length src) src prefix_len_;
  InDomain src := prefix_len_ <=? String.length src;
  InRange dst := String.length dst =? prefix_len_;
  SameResultWhenAppended prefix := prefix_len_ <=? String.length prefix
|}.

Definition CappedPrefixTransform (cap_len_ : nat) : SliceTransform := {|
  Name := "rocksdb.CappedPrefix." +:+ ToString cap_len_;
  Transform src :=
    checked_prefix true src (Nat.min cap_len_ (String.length src));
  InDomain src := true;
  InRange dst := String.length dst <=? cap_len_;
  SameResultWhenAppended prefix := cap_len_ <=? String.length prefix
|}.

Definition NoopTransform : SliceTransform := {|
  Name := "rocksdb.Noop";
  Transform src := Ok src;
  InDomain src := true;
  InRange dst := true;
  SameResultWhenAppended prefix := false
|}.

Definition NewFixedPrefixTransform (prefix_len : nat) : SliceTransform :=
  FixedPrefixTransform prefix_len.
Definition NewCappedPrefixTransform (cap_len : nat) : SliceTransform :=
  CappedPrefixTransform cap_len.
Definition NewNoopTransform : SliceTransform := NoopTransform.

(** The three standard extractors. *)
Inductive standard : SliceTransform → Prop :=
| standard_fixed k : standard (NewFixedPrefixTransform k)
| standard_capped k : standard (NewCappedPrefixTransform k)
| standard_noop : standard NewNoopTransform.
End Transforms.

(** ** util/hash_linklist_rep.cc: nodes, buckets and the arena *)

Definition ptr : Type := option nat.
Abbreviation nullptr := (@None nat) (only parsing).

(** [struct Node]: the entry and the successor link. *)
Record Node : Type := mkNode { key : Key; next_ : ptr }.

(** The index: the bucket array and the nodes allocated from the arena so
    far ([NewNode] hands out the next address). *)
Record HashLinkListRep : Type := mkRep {
  bucket_size_ : nat;
  buckets_ : list ptr;
  arena_ : list Node
}.

(** The cursor of [HashLinkListRep::Iterator] and [DynamicIterator]. *)
Record Iterator : Type := mkIterator { head_ : ptr; node_ : ptr }.

(** Modelled from the spec: [SkipList] of db/skiplist.h is not among the
    sources.  It is the "ordered skip-list keyed by the same comparator":
    its contents in iteration order; its iterator is a position in them. *)
Definition FullList : Type := list Key.

Record FullListIterator : Type := mkFullListIterator {
  full_list_ : FullList;
  iter_ : option nat
}.

(** The iterator family handed out as [MemTableRep::Iterator*]. *)
Inductive MemTableRepIterator : Type :=
| EmptyIterator
| PrefixIterator (it : Iterator)
| DynamicIterator (it : Iterator)
| FullOrderIterator (it : FullListIterator).

(** What the index is built with and against: the build mode, the
    constructor arguments [compare] and [transform], and the collaborators
    declared in headers that are not part of the sources. *)
Class Setting : Type := {
  NDEBUG : bool;
  compare_ : Key → Key → Z;          (* MemTableRep::KeyComparator, three-way *)
  transform_ : SliceTransform;
  UserKey : Key → Slice;             (* the user key of an entry *)
  EncodeKey : Slice → Key;           (* a lookup entry for a slice *)
  MurmurHash : Slice → nat → nat     (* bytes, seed *)
}.

Section Index.
Context `{Setting}.

Definition HashLinkListRep_new (bucket_size : nat) : HashLinkListRep :=
  {| bucket_size_ := bucket_size;
     buckets_ := replicate bucket_size nullptr;
     arena_ := [] |}.

(** *** Node access through a pointer *)

Definition deref (s : HashLinkListRep) (x : ptr) : result Node :=
  match x with
  | None => Fail Undefined
  | Some a =>
      match arena_ s !! a with
      | Some n => Ok n
      | None => Fail Undefined
      end
  end.

Definition Node_key (s : HashLinkListRep) (x : ptr) : result Key :=
  n ← deref s x; Ok (key n).

Definition Node_Next (s : HashLinkListRep) (x : ptr) : result ptr :=
  n ← deref s x; Ok (next_ n).

Definition Node_SetNext (s : HashLinkListRep) (x y : ptr)
  : result HashLinkListRep :=
  n ← deref s x;
  match x with
  | None => Fail Undefined
  | Some a =>
      Ok {| bucket_size_ := bucket_size_ s;
            buckets_ := buckets_ s;
            arena_ := <[a := {| key := key n; next_ := y |}]> (arena_ s) |}
  end.

(** [NewNode]: a fresh node holding [key]; its link is set by the caller
    before the node is published. *)
Definition NewNode (s : HashLinkListRep) (k : Key) : HashLinkListRep * ptr :=
  ({| bucket_size_ := bucket_size_ s;
      buckets_ := buckets_ s;
      arena_ := arena_ s ++ [{| key := k; next_ := nullptr |}] |},
   Some (length (arena_ s))).

(** *** Buckets *)

Definition GetHash (s : HashLinkListRep) (slice : Slice) : nat :=
  MurmurHash slice 0 `mod` bucket_size_ s.

(** [buckets_[i].Acquire_Load()]; a slot outside the array is undefined
    (this is where a zero [bucket_size_] surfaces). *)
Definition GetBucket_at (s : HashLinkListRep) (i : nat) : result ptr :=
  match buckets_ s !! i with
  | Some p => Ok p
  | None => Fail Undefined
  end.

Definition GetBucket (s : HashLinkListRep) (slice : Slice) : result ptr :=
  GetBucket_at s (GetHash s slice).

(** [buckets_[i].Release_Store(x)]. *)
Definition SetBucket_at (s : HashLinkListRep) (i : nat) (x : ptr)
  : result HashLinkListRep :=
  if decide (i < length (buckets_ s)) then
    Ok {| bucket_size_ := bucket_size_ s;
          buckets_ := <[i := x]> (buckets_ s);
          arena_ := arena_ s |}
  else Fail Undefined.

(** *** Comparisons *)

Definition Equal (a b : Key) : bool := (compare_ a b =? 0)%Z.

Definition KeyIsAfterNode (s : HashLinkListRep) (k : Key) (n : ptr)
  : result bool :=
  match n with
  | None => Ok false
  | Some _ => nk ← Node_key s n; Ok (compare_ nk k <? 0)%Z
  end.

(** The condition asserted in both list walks:
    [(x == head) || (next == nullptr) || KeyIsAfterNode(next->key, x)]. *)
Definition links_sorted_at (s : HashLinkListRep) (head x next : ptr)
  : result bool :=
  if decide (x = head) then Ok true
  else if decide (next = nullptr) then Ok true
  else nk ← Node_key s next; KeyIsAfterNode s nk x.

(** *** FindGreaterOrEqualInBucket, BucketContains, Contains *)

Fixpoint FindGreaterOrEqualInBucket_loop (fuel : nat) (s : HashLinkListRep)
    (head x : ptr) (k : Key) : result ptr :=
  match fuel with
  | 0 => Fail OutOfFuel
  | S fuel =>
      match x with
      | None => Ok x
      | Some _ =>
          next ← Node_Next s x;
          _ ← assert_ NDEBUG (links_sorted_at s head x next);
          after ← KeyIsAfterNode s k x;
          if (after : bool)
          then FindGreaterOrEqualInBucket_loop fuel s head next k
          else Ok x
      end
  end.

(** A list without a cycle has at most as many nodes as the arena. *)
Definition walk_fuel (s : HashLinkListRep) : nat := S (length (arena_ s)).

Definition FindGreaterOrEqualInBucket (s : HashLinkListRep) (head : ptr)
    (k : Key) : result ptr :=
  FindGreaterOrEqualInBucket_loop (walk_fuel s) s head head k.

Definition BucketContains (s : HashLinkListRep) (head : ptr) (k : Key)
  : result bool :=
  x ← FindGreaterOrEqualInBucket s head k;
  match x with
  | None => Ok false
  | Some _ => xk ← Node_key s x; Ok (Equal k xk)
  end.

Definition Contains (s : HashLinkListRep) (k : Key) : result bool :=
  transformed ← Transform transform_ (UserKey k);
  bucket ← GetBucket s transformed;
  match bucket with
  | None => Ok false
  | Some _ => BucketContains s bucket k
  end.

(** *** Insert *)

(** The walk of [Insert]; returns the final [(prev, cur)]. *)
Fixpoint Insert_loop (fuel : nat) (s : HashLinkListRep)
    (head prev cur : ptr) (k : Key) : result (ptr * ptr) :=
  match fuel with
  | 0 => Fail OutOfFuel
  | S fuel =>
      match cur with
      | None => Ok (prev, cur)
      | Some _ =>
          next ← Node_Next s cur;
          _ ← assert_ NDEBUG (links_sorted_at s head cur next);
          after ← KeyIsAfterNode s k cur;
          if (after : bool)
          then Insert_loop fuel s head cur next k
          else Ok (prev, cur)
      end
  end.

Definition Insert (s : HashLinkListRep) (k : Key) : result HashLinkListRep :=
  _ ← assert_ NDEBUG (c ← Contains s k; Ok (negb c));
  transformed ← Transform transform_ (UserKey k);
  let bucket := GetHash s transformed in
  head ← GetBucket_at s bucket;
  match head with
  | None =>
      let '(s, x) := NewNode s k in
      s ← Node_SetNext s x nullptr;
      SetBucket_at s bucket x
  | Some _ =>
      pc ← Insert_loop (walk_fuel s) s head nullptr head k;
      let '(prev, cur) := pc in
      _ ← assert_ NDEBUG
            (match cur with
             | None => Ok true
             | Some _ => ck ← Node_key s cur; Ok (negb (Equal k ck))
             end);
      let '(s, x) := NewNode s k in
      s ← Node_SetNext s x cur;
      match prev with
      | Some _ => Node_SetNext s prev x
      | None => SetBucket_at s bucket x
      end
  end.

(** A run of [Insert] calls, in order. *)
Fixpoint InsertAll (s : HashLinkListRep) (ks : list Key)
  : result HashLinkListRep :=
  match ks with
  | [] => Ok s
  | k :: ks => s ← Insert s k; InsertAll s ks
  end.

(** *** HashLinkListRep::Iterator (the per-bucket prefix iterator) *)

Definition Iterator_new (head : ptr) : Iterator :=
  {| head_ := head; node_ := nullptr |}.

Definition Iterator_Valid (it : Iterator) : bool :=
  bool_decide (node_ it ≠ nullptr).

Definition Iterator_key (s : HashLinkListRep) (it : Iterator) : result Key :=
  _ ← assert_ NDEBUG (Ok (Iterator_Valid it));
  Node_key s (node_ it).

Definition Iterator_Next (s : HashLinkListRep) (it : Iterator)
  : result Iterator :=
  _ ← assert_ NDEBUG (Ok (Iterator_Valid it));
  n ← Node_Next s (node_ it);
  Ok {| head_ := head_ it; node_ := n |}.

Definition Iterator_Reset (it : Iterator) (head : ptr) : Iterator :=
  {| head_ := head; node_ := nullptr |}.

Definition Iterator_Prev (it : Iterator) : Iterator :=
  Iterator_Reset it nullptr.

(** [memtable_key != nullptr ? memtable_key : EncodeKey(&tmp_, internal_key)] *)
Definition encoded_key (internal_key : Slice) (memtable_key : option Key)
  : Key :=
  match memtable_key with
  | Some k => k
  | None => EncodeKey internal_key
  end.

Definition Iterator_Seek (s : HashLinkListRep) (it : Iterator)
    (internal_key : Slice) (memtable_key : option Key) : result Iterator :=
  n ← FindGreaterOrEqualInBucket s (head_ it)
        (encoded_key internal_key memtable_key);
  Ok {| head_ := head_ it; node_ := n |}.

Definition Iterator_SeekToFirst (it : Iterator) : Iterator :=
  Iterator_Reset it nullptr.

Definition Iterator_SeekToLast (it : Iterator) : Iterator :=
  Iterator_Reset it nullptr.

Definition Iterator_SeekToHead (it : Iterator) : Iterator :=
  {| head_ := head_ it; node_ := head_ it |}.

(** A forward scan from where the iterator stands, as a caller writes it:
    [for (; it.Valid(); it.Next()) visit(it.key());].  The keys visited, in
    order. *)
Fixpoint Iterator_visit (fuel : nat) (s : HashLinkListRep) (it : Iterator)
  : result (list Key) :=
  match fuel with
  | 0 => Fail OutOfFuel
  | S fuel =>
      if Iterator_Valid it then
        k ← Iterator_key s it;
        it ← Iterator_Next s it;
        ks ← Iterator_visit fuel s it;
        Ok (k :: ks)
      else Ok []
  end.

Definition Iterator_scan (s : HashLinkListRep) (it : Iterator)
  : result (list Key) :=
  Iterator_visit (walk_fuel s) s it.

(** *** DynamicIterator: [Seek] re-homes to the bucket of the target *)

Definition DynamicIterator_new : Iterator := Iterator_new nullptr.

Definition DynamicIterator_Seek (s : HashLinkListRep) (it : Iterator)
    (k : Slice) (memtable_key : option Key) : result Iterator :=
  transformed ← Transform transform_ k;
  bucket ← GetBucket s transformed;
  Iterator_Seek s (Iterator_Reset it bucket) k memtable_key.

(** *** The full-order list *)

(** Modelled from the spec: [SkipList::Insert] (db/skiplist.h, absent)
    keeps the list ordered by the comparator: the entry goes in front of
    the first one that is not smaller.  Like the list walk above it
    asserts that no equal entry is present. *)
Fixpoint FullList_Insert (l : FullList) (k : Key) : result FullList :=
  match l with
  | [] => Ok [k]
  | k' :: l' =>
      if (compare_ k' k <? 0)%Z
      then l'' ← FullList_Insert l' k; Ok (k' :: l'')
      else _ ← assert_ NDEBUG (Ok (negb (Equal k k'))); Ok (k :: l)
  end.

(** Modelled from the spec: the cursor of [SkipList::Iterator]
    (db/skiplist.h, absent): a position in the ordered contents. *)
Definition FullList_first (l : FullList) : option nat :=
  match l with [] => None | _ :: _ => Some 0 end.

Definition FullList_next (l : FullList) (i : nat) : option nat :=
  if decide (S i < length l) then Some (S i) else None.

Definition FullList_prev (i : nat) : option nat :=
  match i with 0 => None | S j => Some j end.

Definition FullList_last (l : FullList) : option nat :=
  match length l with 0 => None | S n => Some n end.

(** The first position whose entry is not smaller than [target]. *)
Definition FullList_seek (l : FullList) (target : Key) : option nat :=
  fst <$> list_find (λ k, ¬ (compare_ k target < 0)%Z) l.

Definition FullListIterator_new (l : FullList) : FullListIterator :=
  {| full_list_ := l; iter_ := None |}.

Definition FullListIterator_Valid (it : FullListIterator) : bool :=
  bool_decide (iter_ it ≠ None).

Definition FullListIterator_key (it : FullListIterator) : result Key :=
  _ ← assert_ NDEBUG (Ok (FullListIterator_Valid it));
  match iter_ it ≫= (full_list_ it !!.) with
  | Some k => Ok k
  | None => Fail Undefined
  end.

Definition FullListIterator_Next (it : FullListIterator)
  : result FullListIterator :=
  _ ← assert_ NDEBUG (Ok (FullListIterator_Valid it));
  match iter_ it with
  | Some i =>
      Ok {| full_list_ := full_list_ it;
            iter_ := FullList_next (full_list_ it) i |}
  | None => Fail Undefined
  end.

Definition FullListIterator_SeekToFirst (it : FullListIterator)
  : FullListIterator :=
  {| full_list_ := full_list_ it; iter_ := FullList_first (full_list_ it) |}.

Definition FullListIterator_Prev (it : FullListIterator)
  : result FullListIterator :=
  _ ← assert_ NDEBUG (Ok (FullListIterator_Valid it));
  match iter_ it with
  | Some i => Ok {| full_list_ := full_list_ it; iter_ := FullList_prev i |}
  | None => Fail Undefined
  end.

Definition FullListIterator_Seek (it : FullListIterator)
    (internal_key : Slice) (memtable_key : option Key) : FullListIterator :=
  {| full_list_ := full_list_ it;
     iter_ := FullList_seek (full_list_ it)
                (encoded_key internal_key memtable_key) |}.

Definition FullListIterator_SeekToLast (it : FullListIterator)
  : FullListIterator :=
  {| full_list_ := full_list_ it; iter_ := FullList_last (full_list_ it) |}.

(** *** GetIterator(): snapshot every bucket into a full-order list *)

(** [for (itr.SeekToHead(); itr.Valid(); itr.Next()) list->Insert(itr.key());]
    after the [SeekToHead]. *)
Fixpoint GetIterator_bucket (fuel : nat) (s : HashLinkListRep)
    (itr : Iterator) (list : FullList) : result FullList :=
  match fuel with
  | 0 => Fail OutOfFuel
  | S fuel =>
      if Iterator_Valid itr then
        k ← Iterator_key s itr;
        list ← FullList_Insert list k;
        itr ← Iterator_Next s itr;
        GetIterator_bucket fuel s itr list
      else Ok list
  end.

(** The loop over the slots [i], [i + 1], ... listed in [slots]. *)
Fixpoint GetIterator_buckets (s : HashLinkListRep) (slots : list nat)
    (list : FullList) : result FullList :=
  match slots with
  | [] => Ok list
  | i :: slots =>
      bucket ← GetBucket_at s i;
      list ← match bucket with
             | Some _ =>
                 GetIterator_bucket (walk_fuel s) s
                   (Iterator_SeekToHead (Iterator_new bucket)) list
             | None => Ok list
             end;
      GetIterator_buckets s slots list
  end.

Definition GetIterator (s : HashLinkListRep) : result FullListIterator :=
  list ← GetIterator_buckets s (seq 0 (bucket_size_ s)) [];
  Ok (FullListIterator_new list).

(** [SeekToFirst] followed by [Next] until the iterator is invalid: the
    keys visited, in order. *)
Fixpoint FullListIterator_visit (fuel : nat) (it : FullListIterator)
  : result (list Key) :=
  match fuel with
  | 0 => Fail OutOfFuel
  | S fuel =>
      if FullListIterator_Valid it then
        k ← FullListIterator_key it;
        it ← FullListIterator_Next it;
        ks ← FullListIterator_visit fuel it;
        Ok (k :: ks)
      else Ok []
  end.

Definition FullListIterator_scan (it : FullListIterator) : result (list Key) :=
  FullListIterator_visit (S (length (full_list_ it)))
                         (FullListIterator_SeekToFirst it).

(** *** The iterator factories *)

Definition GetPrefixIterator (s : HashLinkListRep) (prefix : Slice)
  : result MemTableRepIterator :=
  bucket ← GetBucket s prefix;
  match bucket with
  | None => Ok EmptyIterator
  | Some _ => Ok (PrefixIterator (Iterator_new bucket))
  end.

Definition GetIterator_slice (s : HashLinkListRep) (slice : Slice)
  : result MemTableRepIterator :=
  prefix ← Transform transform_ slice;
  GetPrefixIterator s prefix.

Definition GetDynamicPrefixIterator : MemTableRepIterator :=
  DynamicIterator DynamicIterator_new.

(** *** Virtual dispatch over the family *)

Definition Valid (it : MemTableRepIterator) : bool :=
  match it with
  | EmptyIterator => false
  | PrefixIterator i | DynamicIterator i => Iterator_Valid i
  | FullOrderIterator i => FullListIterator_Valid i
  end.

Definition Next (s : HashLinkListRep) (it : MemTableRepIterator)
  : result MemTableRepIterator :=
  match it with
  | EmptyIterator => Ok EmptyIterator
  | PrefixIterator i => i ← Iterator_Next s i; Ok (PrefixIterator i)
  | DynamicIterator i => i ← Iterator_Next s i; Ok (DynamicIterator i)
  | FullOrderIterator i => i ← FullListIterator_Next i; Ok (FullOrderIterator i)
  end.

Definition Prev (it : MemTableRepIterator) : result MemTableRepIterator :=
  match it with
  | EmptyIterator => Ok EmptyIterator
  | PrefixIterator i => Ok (PrefixIterator (Iterator_Prev i))
  | DynamicIterator i => Ok (DynamicIterator (Iterator_Prev i))
  | FullOrderIterator i => i ← FullListIterator_Prev i; Ok (FullOrderIterator i)
  end.

Definition Seek (s : HashLinkListRep) (it : MemTableRepIterator)
    (internal_key : Slice) (memtable_key : option Key)
  : result MemTableRepIterator :=
  match it with
  | EmptyIterator => Ok EmptyIterator
  | PrefixIterator i =>
      i ← Iterator_Seek s i internal_key memtable_key; Ok (PrefixIterator i)
  | DynamicIterator i =>
      i ← DynamicIterator_Seek s i internal_key memtable_key;
      Ok (DynamicIterator i)
  | FullOrderIterator i =>
      Ok (FullOrderIterator (FullListIterator_Seek i internal_key memtable_key))
  end.

Definition SeekToFirst (it : MemTableRepIterator) : MemTableRepIterator :=
  match it with
  | EmptyIterator => EmptyIterator
  | PrefixIterator i => PrefixIterator (Iterator_SeekToFirst i)
  | DynamicIterator i => DynamicIterator (Iterator_SeekToFirst i)
  | FullOrderIterator i => FullOrderIterator (FullListIterator_SeekToFirst i)
  end.

Definition SeekToLast (it : MemTableRepIterator) : MemTableRepIterator :=
  match it with
  | EmptyIterator => EmptyIterator
  | PrefixIterator i => PrefixIterator (Iterator_SeekToLast i)
  | DynamicIterator i => DynamicIterator (Iterator_SeekToLast i)
  | FullOrderIterator i => FullOrderIterator (FullListIterator_SeekToLast i)
  end.
End Index.

(** ** The abstract view of an index state *)

Section View.
Context `{Setting}.

(** The order and the equality induced by the comparator. *)
Definition key_lt (a b : Key) : Prop := (compare_ a b < 0)%Z.

(** The comparator is a three-way total order. *)
Record ThreeWay : Prop := {
  compare_flip : ∀ a b, (compare_ a b < 0 ↔ 0 < compare_ b a)%Z;
  compare_trans : ∀ a b c,
    (compare_ a b ≤ 0 → compare_ b c ≤ 0 → compare_ a c ≤ 0)%Z
}.

(** Entries that compare equal are the same entry. *)
Definition Separating : Prop := ∀ a b, compare_ a b = 0%Z → a = b.

(** The keys of a run of inserts are pairwise non-equal. *)
Fixpoint distinct (ks : list Key) : bool :=
  match ks with
  | [] => true
  | k :: ks => forallb (λ k', negb (Equal k k')) ks && distinct ks
  end.

(** Every key of the run is in the domain of the extractor. *)
Definition transformable (ks : list Key) : Prop :=
  Forall (λ k, is_Ok (Transform transform_ (UserKey k))) ks.

(** [Chain h p l]: following the successor links from [p] in the arena
    [h] visits exactly the nodes [l] (address and entry) and then
    [nullptr]. *)
Inductive Chain (h : list Node) : ptr → list (nat * Key) → Prop :=
| Chain_null : Chain h nullptr []
| Chain_node a n l :
    h !! a = Some n →
    Chain h (next_ n) l →
    Chain h (Some a) ((a, key n) :: l).

Definition ptr_head (l : list (nat * Key)) : ptr := fst <$> head l.

Definition ptr_last (prev : ptr) (l : list (nat * Key)) : ptr :=
  match last l with
  | Some x => Some x.1
  | None => prev
  end.

(** [Inv s ls]: [ls] lists, bucket by bucket, the chain of each bucket;
    no node is shared and every entry sits in the slot of its prefix. *)
Record Inv (s : HashLinkListRep) (ls : list (list (nat * Key))) : Prop := {
  inv_size : length (buckets_ s) = bucket_size_ s;
  inv_chain : Forall2 (Chain (arena_ s)) (buckets_ s) ls;
  inv_nodup : ∀ i l, ls !! i = Some l → NoDup l.*1;
  inv_apart : ∀ i j li lj x y, ls !! i = Some li → ls !! j = Some lj →
    x ∈ li → y ∈ lj → x.1 = y.1 → i = j;
  inv_slot : ∀ i l x, ls !! i = Some l → x ∈ l →
    ∃ p, Transform transform_ (UserKey x.2) = Ok p ∧ GetHash s p = i
}.

(** Every bucket is strictly increasing. *)
Definition Ordered (ls : list (list (nat * Key))) : Prop :=
  Forall (λ l, StronglySorted key_lt l.*2) ls.

(** The state [Insert] leaves behind when [k] goes into slot [i] between
    the nodes [l1] and [l2] of that bucket. *)
Definition linked (s : HashLinkListRep) (i : nat) (k : Key)
    (l1 l2 : list (nat * Key)) : HashLinkListRep :=
  let x := length (arena_ s) in
  {| bucket_size_ := bucket_size_ s;
     buckets_ := match l1 with
                 | [] => <[i := Some x]> (buckets_ s)
                 | _ :: _ => buckets_ s
                 end;
     arena_ := match last l1 with
               | Some (a, ka) =>
                   <[a := {| key := ka; next_ := Some x |}]> (arena_ s)
               | None => arena_ s
               end ++ [{| key := k; next_ := ptr_head l2 |}] |}.

(** The full-order list after the entries [ks] have gone in, in order. *)
Fixpoint FullList_fill (full : FullList) (ks : list Key) : result FullList :=
  match ks with
  | [] => Ok full
  | k :: ks => full ← FullList_Insert full k; FullList_fill full ks
  end.

(** The iterator for a prefix as the specification words it: the empty
    iterator when the bucket of the prefix is null, otherwise a per-bucket
    prefix iterator over that bucket head, not yet positioned. *)
Definition prefix_iterator_spec (s : HashLinkListRep) (prefix : Slice)
  : result MemTableRepIterator :=
  bucket ← GetBucket s prefix;
  Ok (match bucket with
      | None => EmptyIterator
      | Some a => PrefixIterator {| head_ := Some a; node_ := nullptr |}
      end).
End View.

(** ** A concrete instance: raw byte strings ordered bytewise *)

Module Bytewise.
(** Three-way bytewise comparison of two entries. *)
Definition compare (a b : Key) : Z :=
  match String.compare a b with
  | Lt => -1
  | Eq => 0
  | Gt => 1
  end%Z.

(** Entries that are their own user key and their own lookup key. *)
Definition user_key (k : Key) : Slice := k.
Definition encode_key (s : Slice) : Key := s.

(** A stand-in for MurmurHash: the sum of the bytes, plus the seed. *)
Fixpoint hash (s : Slice) (seed : nat) : nat :=
  match s with
  | EmptyString => seed
  | String c s => nat_of_ascii c + hash s seed
  end.

Definition setting (ndebug : bool) (t : SliceTransform) : Setting := {|
  NDEBUG := ndebug;
  compare_ := compare;
  transform_ := t;
  UserKey := user_key;
  EncodeKey := encode_key;
  MurmurHash := hash
|}.

(** A debug build over the fixed-length-3 extractor, four buckets, and
    the state after inserting ["abcY"], ["abdZ"], ["abcX"]. *)
Definition demo : Setting := setting false (NewFixedPrefixTransform false 3).

Definition demo_keys : list Key := ["abcY"; "abdZ"; "abcX"].

Definition demo_state : HashLinkListRep := {|
  bucket_size_ := 4;
  buckets_ := [None; None; Some 2; Some 1];
  arena_ := [ {| key := "abcY"; next_ := None |};
              {| key := "abdZ"; next_ := None |};
              {| key := "abcX"; next_ := Some 0 |} ]
|}.
End Bytewise.

(** * Properties *)

(** ** The result monad *)

Lemma bind_Ok {A B} (m : result A) (f : A → result B) (b : B) :
  m ≫= f = Ok b → ∃ a, m = Ok a ∧ f a = Ok b.
Proof. destruct m as [a|e]; simpl; [eauto | discriminate]. Qed.

Lemma bind_Ok_l {A B} (a : A) (f : A → result B) : Ok a ≫= f = f a.
Proof. done. Qed.

Lemma assert_pass (nd : bool) (c : result bool) :
  c = Ok true → assert_ nd c = Ok tt.
Proof. intros ->. by destruct nd. Qed.

(** ** Prefixes of slices *)

Lemma Slice_prefix_append (p s : Slice) (n : nat) :
  n ≤ String.length p → Slice_prefix (p +:+ s) n = Slice_prefix p n.
Proof.
  unfold Slice_prefix. revert n.
  induction p as [|c p IH]; intros [|n] Hn; simpl in *; try lia.
  - by destruct s.
  - done.
  - f_equal. apply IH. lia.
Qed.

Lemma Slice_prefix_all (p : Slice) : Slice_prefix p (String.length p) = p.
Proof.
  unfold Slice_prefix. induction p as [|c p IH]; simpl; [done | by f_equal].
Qed.

Lemma String_length_append (p s : string) :
  String.length (p +:+ s) = String.length p + String.length s.
Proof. induction p as [|c p IH]; simpl; [done | by f_equal]. Qed.

(** ** The standard extractors *)

Section TransformFacts.
Variable debug : bool.

Lemma checked_prefix_append (d1 d2 : bool) (p s : Slice) (n : nat) :
  n ≤ String.length p → d1 = true → d2 = true →
  checked_prefix debug d1 (p +:+ s) n = checked_prefix debug d2 p n ∧
  checked_prefix debug d2 p n = Ok (Slice_prefix p n).
Proof.
  intros Hn -> ->. unfold checked_prefix.
  rewrite assert_pass by done. simpl.
  rewrite String_length_append.
  rewrite !decide_True by lia.
  by rewrite Slice_prefix_append.
Qed.
End TransformFacts.

(** C5 (as stated, refuted): with the fixed-length-2 extractor the slice
    ["abc"] is reported stable under appending, yet transforming
    ["abc" ∥ "d"] yields ["ab"], not ["abc"]. *)
Lemma same_result_when_appended_is_not_identity :
  standard false (NewFixedPrefixTransform false 2) ∧
  SameResultWhenAppended (NewFixedPrefixTransform false 2) "abc" = true ∧
  Transform (NewFixedPrefixTransform false 2) ("abc" +:+ "d") = Ok "ab" ∧
  Transform (NewFixedPrefixTransform false 2) ("abc" +:+ "d") ≠ Ok "abc".
Proof. split; [constructor | by repeat split]. Qed.

(** C5 (amended): for each of the three standard extractors and every byte
    string [p], if [SameResultWhenAppended p] is true then for every suffix
    [s] the transform of [p ∥ s] is defined and equals the transform of [p];
    it is [p] itself when moreover [p] is in the range of the extractor
    (its length is exactly [k]). *)
Theorem same_result_when_appended_stable
    (nd : bool) (t : SliceTransform) (p s : Slice) :
  standard nd t →
  SameResultWhenAppended t p = true →
  Transform t (p +:+ s) = Transform t p ∧
  is_Ok (Transform t p) ∧
  (InRange t p = true → Transform t (p +:+ s) = Ok p).
Proof.
  intros [k|k|]; simpl; [| |discriminate].
  - intros Hk%Nat.leb_le.
    destruct (checked_prefix_append nd
                (k <=? String.length (p +:+ s)) (k <=? String.length p)
                p s k) as [E1 E2]; [done| | by apply Nat.leb_le |].
    { apply Nat.leb_le. rewrite String_length_append. lia. }
    rewrite E1, E2. repeat split; [by eexists|].
    intros Hr%Nat.eqb_eq. by rewrite <- Hr, Slice_prefix_all.
  - intros Hk%Nat.leb_le.
    rewrite String_length_append.
    replace (k `min` (String.length p + String.length s)) with k by lia.
    replace (k `min` String.length p) with k by lia.
    destruct (checked_prefix_append nd true true p s k) as [E1 E2]; try done.
    rewrite E1, E2. repeat split; [by eexists|].
    intros Hr%Nat.leb_le.
    assert (k = String.length p) as -> by lia.
    by rewrite Slice_prefix_all.
Qed.

Lemma same_result_when_appended_stable_witness :
  standard false (NewFixedPrefixTransform false 2) ∧
  SameResultWhenAppended (NewFixedPrefixTransform false 2) "abc" = true ∧
  Transform (NewFixedPrefixTransform false 2) ("abc" +:+ "d")
  = Transform (NewFixedPrefixTransform false 2) "abc" ∧
  is_Ok (Transform (NewFixedPrefixTransform false 2) "abc") ∧
  (InRange (NewFixedPrefixTransform false 2) "abc" = true →
   Transform (NewFixedPrefixTransform false 2) ("abc" +:+ "d") = Ok "abc").
Proof.
  split; [constructor|]. split; [reflexivity|].
  apply (same_result_when_appended_stable false
           (NewFixedPrefixTransform false 2) "abc" "d").
  - constructor.
  - reflexivity.
Defined.

(** C8: for every [k] the fixed-length extractor is named
    ["rocksdb.FixedPrefix.<k>"], the capped-length extractor
    ["rocksdb.CappedPrefix.<k>"] ([<k>] the decimal numeral of [k]), and the
    identity extractor ["rocksdb.Noop"]; the build mode plays no role. *)
Theorem standard_names (nd : bool) (k : nat) :
  Name (NewFixedPrefixTransform nd k) = "rocksdb.FixedPrefix." +:+ ToString k ∧
  Name (NewCappedPrefixTransform nd k) = "rocksdb.CappedPrefix." +:+ ToString k ∧
  Name (NewNoopTransform) = "rocksdb.Noop" ∧
  NilZero.uint_of_string (ToString k) = Some (Nat.to_uint k).
Proof.
  split_and!; try reflexivity. unfold ToString. apply NilZero.usu.
  rewrite <- (DecimalNat.Unsigned.of_to k), DecimalNat.Unsigned.to_of.
  apply DecimalFacts.unorm_nonnil.
Qed.

Example name_fixed_12 :
  Name (NewFixedPrefixTransform false 12) = "rocksdb.FixedPrefix.12".
Proof. reflexivity. Qed.
Example name_capped_0 :
  Name (NewCappedPrefixTransform true 0) = "rocksdb.CappedPrefix.0".
Proof. reflexivity. Qed.
Example fixed_abcX : Transform (FixedPrefixTransform false 3) "abcX" = Ok "abc".
Proof. reflexivity. Qed.
Example fixed_short_debug :
  Transform (FixedPrefixTransform false 3) "ab" = Fail AssertionFailed.
Proof. reflexivity. Qed.
Example fixed_short_release :
  Transform (FixedPrefixTransform true 3) "ab" = Fail Undefined.
Proof. reflexivity. Qed.
Example capped_ab : Transform (CappedPrefixTransform false 4) "ab" = Ok "ab".
Proof. reflexivity. Qed.
Example capped_abcdef :
  Transform (CappedPrefixTransform false 4) "abcdef" = Ok "abcd".
Proof. reflexivity. Qed.

(** ** Chains of successor links *)

Section ChainFacts.
Context `{Setting}.
Implicit Types (h : list Node) (p : ptr) (l : list (nat * Key)).

Lemma Chain_null_inv h l : Chain h nullptr l → l = [].
Proof. by inversion 1. Qed.

Lemma Chain_head h p l : Chain h p l → ptr_head l = p.
Proof. by destruct 1. Qed.

Lemma Chain_det h p l l' : Chain h p l → Chain h p l' → l = l'.
Proof.
  intros Hl. revert l'. induction Hl as [|a n l Ha _ IH]; intros l' Hl'.
  - by inversion Hl'.
  - inversion Hl' as [|a' n' l'' Ha' Hn']; subst.
    rewrite Ha in Ha'. injection Ha' as <-. f_equal. by apply IH.
Qed.

Lemma Chain_lookup h p l x :
  Chain h p l → x ∈ l → ∃ n, h !! x.1 = Some n ∧ key n = x.2.
Proof.
  induction 1 as [|a n l Ha _ IH]; intros Hx.
  - by apply elem_of_nil in Hx.
  - apply elem_of_cons in Hx as [->|Hx]; [by exists n | by apply IH].
Qed.

Lemma Chain_ext h h' p l :
  Chain h p l → (∀ x, x ∈ l → h' !! x.1 = h !! x.1) → Chain h' p l.
Proof.
  induction 1 as [|a n l Ha _ IH]; intros Hext; constructor.
  - rewrite <- Ha. apply (Hext (a, key n)). by left.
  - apply IH. intros x Hx. apply Hext. by right.
Qed.

Lemma Chain_grow h p l n : Chain h p l → Chain (h ++ [n]) p l.
Proof.
  intros Hl. apply (Chain_ext h); [done|].
  intros x Hx. destruct (Chain_lookup _ _ _ _ Hl Hx) as (m & Hm & _).
  rewrite Hm. by apply lookup_app_l_Some.
Qed.

Lemma Chain_bound h p l x : Chain h p l → x ∈ l → x.1 < length h.
Proof.
  intros Hl Hx. destruct (Chain_lookup _ _ _ _ Hl Hx) as (n & Hn & _).
  by eapply lookup_lt_Some.
Qed.

(** A chain without a repeated node fits in the arena: it has no cycle. *)
Lemma Chain_length h p l : Chain h p l → NoDup l.*1 → length l ≤ length h.
Proof.
  intros Hl Hnd.
  assert (l.*1 ⊆+ seq 0 (length h)) as Hsub.
  { apply NoDup_submseteq; [done|].
    intros a (x & -> & Hx)%list_elem_of_fmap.
    apply elem_of_seq. pose proof (Chain_bound _ _ _ _ Hl Hx). lia. }
  apply submseteq_length in Hsub.
  by rewrite length_fmap, length_seq in Hsub.
Qed.

Lemma ptr_last_cons prev x l : ptr_last prev (x :: l) = ptr_last (Some x.1) l.
Proof.
  unfold ptr_last. destruct l as [|y l]; simpl; [done|].
  destruct (last (y :: l)) eqn:E; [done|]. by apply last_None in E.
Qed.
End ChainFacts.

(** ** The two list walks *)

Section WalkFacts.
Context `{Setting}.
Implicit Types (s : HashLinkListRep) (l : list (nat * Key)).
Local Arguments KeyIsAfterNode : simpl never.
Local Arguments Node_key : simpl never.
Local Arguments Node_Next : simpl never.

Lemma deref_Some s a n : arena_ s !! a = Some n → deref s (Some a) = Ok n.
Proof. unfold deref. by intros ->. Qed.

Lemma Node_Next_Some s a n :
  arena_ s !! a = Some n → Node_Next s (Some a) = Ok (next_ n).
Proof. intros Ha. unfold Node_Next. by rewrite (deref_Some _ _ _ Ha). Qed.

Lemma Node_key_Some s a n :
  arena_ s !! a = Some n → Node_key s (Some a) = Ok (key n).
Proof. intros Ha. unfold Node_key. by rewrite (deref_Some _ _ _ Ha). Qed.

Lemma KeyIsAfterNode_Some s k a n :
  arena_ s !! a = Some n →
  KeyIsAfterNode s k (Some a) = Ok (compare_ (key n) k <? 0)%Z.
Proof. intros Ha. unfold KeyIsAfterNode. by rewrite (Node_key_Some _ _ _ Ha). Qed.

(** What a finished walk of [Insert] returns: the bucket splits into the
    nodes smaller than [k] and the rest, which does not start with a
    smaller node; [prev] is the last node of the first part, [cur] the
    first of the second. *)
Lemma Insert_loop_Ok fuel s hd k : ∀ l prev cur r,
  Chain (arena_ s) cur l →
  Insert_loop fuel s hd prev cur k = Ok r →
  ∃ l1 l2, l = l1 ++ l2 ∧
    Forall (λ x, key_lt x.2 k) l1 ∧
    (∀ x, head l2 = Some x → ¬ key_lt x.2 k) ∧
    r = (ptr_last prev l1, ptr_head l2).
Proof.
  induction fuel as [|fuel IH]; intros l prev cur r Hl Hr; [done|].
  destruct Hl as [|a n l Ha Hl]; simpl in Hr.
  - injection Hr as <-. exists [], []. split_and!; [done|done| |done].
    intros x Hx. discriminate.
  - rewrite (Node_Next_Some _ _ _ Ha) in Hr. simpl in Hr.
    apply bind_Ok in Hr as (_ & _ & Hr). cbv beta in Hr.
    rewrite (KeyIsAfterNode_Some _ _ _ _ Ha) in Hr. simpl in Hr.
    destruct (compare_ (key n) k <? 0)%Z eqn:Hc.
    + apply Z.ltb_lt in Hc.
      destruct (IH _ _ _ _ Hl Hr) as (l1 & l2 & -> & H1 & H2 & ->).
      exists ((a, key n) :: l1), l2. split_and!; [done| |done|].
      * by constructor.
      * by rewrite ptr_last_cons.
    + apply Z.ltb_ge in Hc. injection Hr as <-.
      exists [], ((a, key n) :: l). split_and!; [done|done| |done].
      intros x [= <-]. unfold key_lt. simpl. lia.
Qed.

(** The walk finishes when the bucket has no cycle and, in a debug build,
    is sorted (the assertion on adjacent links). *)
Lemma Insert_loop_total fuel s hd k : ∀ l prev cur,
  Chain (arena_ s) cur l →
  length l < fuel →
  NDEBUG = true ∨ StronglySorted key_lt l.*2 →
  is_Ok (Insert_loop fuel s hd prev cur k).
Proof.
  induction fuel as [|fuel IH]; intros l prev cur Hl Hfuel Hs; [lia|].
  destruct Hl as [|a n l Ha Hl]; simpl in *; [by eexists|].
  rewrite (Node_Next_Some _ _ _ Ha). simpl.
  assert (assert_ NDEBUG (links_sorted_at s hd (Some a) (next_ n)) = Ok tt)
    as ->.
  { destruct Hs as [->|Hs]; [done|]. apply assert_pass.
    unfold links_sorted_at. case_decide; [done|]. case_decide; [done|].
    destruct Hl as [|b m l Hb Hl]; [done|].
    rewrite (Node_key_Some _ _ _ Hb). simpl.
    rewrite (KeyIsAfterNode_Some _ _ _ _ Ha). f_equal.
    apply Z.ltb_lt. simpl in Hs.
    apply StronglySorted_inv in Hs as [_ Hs].
    by apply Forall_cons in Hs as [Hs _]. }
  simpl. rewrite (KeyIsAfterNode_Some _ _ _ _ Ha). simpl.
  destruct (compare_ (key n) k <? 0)%Z; [|by eexists].
  apply (IH l); [done|lia|].
  destruct Hs as [Hs|Hs]; [by left|right].
  by apply StronglySorted_inv in Hs as [Hs _].
Qed.

(** [FindGreaterOrEqualInBucket] performs the walk of [Insert] and keeps
    [cur]. *)
Lemma Find_loop_Insert_loop fuel s hd k : ∀ prev x,
  FindGreaterOrEqualInBucket_loop fuel s hd x k
  = pc ← Insert_loop fuel s hd prev x k; Ok pc.2.
Proof.
  induction fuel as [|fuel IH]; intros prev x; [done|].
  destruct x as [a|]; simpl; [|done].
  destruct (Node_Next s (Some a)) as [next|]; simpl; [|done].
  destruct (assert_ NDEBUG _); simpl; [|done].
  destruct (KeyIsAfterNode s k (Some a)) as [[]|]; simpl; [|done..].
  apply IH.
Qed.
End WalkFacts.

(** ** The effect of one Insert *)

Section InsertFacts.
Context `{Setting}.
Implicit Types (s : HashLinkListRep) (l : list (nat * Key)).
Implicit Types (ls : list (list (nat * Key))).
Local Arguments KeyIsAfterNode : simpl never.
Local Arguments Node_key : simpl never.
Local Arguments Node_Next : simpl never.

Lemma NewNode_SetNext s k y :
  Node_SetNext (NewNode s k).1 (NewNode s k).2 y
  = Ok {| bucket_size_ := bucket_size_ s;
          buckets_ := buckets_ s;
          arena_ := arena_ s ++ [{| key := k; next_ := y |}] |}.
Proof.
  unfold Node_SetNext, NewNode, deref. simpl.
  rewrite list_lookup_middle by done. simpl. do 2 f_equal.
  rewrite insert_app_r_alt by done. by rewrite Nat.sub_diag.
Qed.

Lemma Node_SetNext_Some s a n y :
  arena_ s !! a = Some n →
  Node_SetNext s (Some a) y
  = Ok {| bucket_size_ := bucket_size_ s;
          buckets_ := buckets_ s;
          arena_ := <[a := {| key := key n; next_ := y |}]> (arena_ s) |}.
Proof. intros Ha. unfold Node_SetNext. by rewrite (deref_Some _ _ _ Ha). Qed.

Lemma Inv_bucket s ls i hd :
  Inv s ls → buckets_ s !! i = Some hd →
  ∃ l, ls !! i = Some l ∧ Chain (arena_ s) hd l.
Proof.
  intros HI Hi. destruct (Forall2_lookup_l _ _ _ _ _ (inv_chain _ _ HI) Hi)
    as (l & Hl & Hc). eauto.
Qed.

Lemma last_Some_elem_of {A} (l : list A) (x : A) : last l = Some x → x ∈ l.
Proof.
  intros (l' & ->)%last_Some. apply elem_of_app. right. by left.
Qed.

(** [Insert], when it returns, has linked the new node into the bucket of
    its prefix, after the nodes smaller than the key. *)
Lemma Insert_Ok s ls k s' :
  Inv s ls → Insert s k = Ok s' →
  ∃ p l1 l2,
    Transform transform_ (UserKey k) = Ok p ∧
    ls !! GetHash s p = Some (l1 ++ l2) ∧
    Forall (λ x, key_lt x.2 k) l1 ∧
    (∀ x, head l2 = Some x → ¬ key_lt x.2 k) ∧
    s' = linked s (GetHash s p) k l1 l2.
Proof.
  intros HI. unfold Insert. intros Hs'.
  apply bind_Ok in Hs' as (_ & _ & Hs'). cbv beta in Hs'.
  apply bind_Ok in Hs' as (p & Hp & Hs'). cbv beta zeta in Hs'.
  exists p. set (i := GetHash s p) in *.
  apply bind_Ok in Hs' as (hd & Hhd & Hs').
  unfold GetBucket_at in Hhd.
  destruct (buckets_ s !! i) as [hd'|] eqn:Hi; [|done].
  injection Hhd as ->.
  destruct (Inv_bucket _ _ _ _ HI Hi) as (l & Hl & Hc).
  assert (i < length (buckets_ s)) as Hlt by by eapply lookup_lt_Some.
  destruct hd as [a0|].
  - apply bind_Ok in Hs' as ([prev cur] & Hloop & Hs').
    destruct (Insert_loop_Ok _ _ _ _ _ _ _ _ Hc Hloop)
      as (l1 & l2 & -> & H1 & H2 & [= -> ->]).
    exists l1, l2. split_and!; try done.
    apply bind_Ok in Hs' as (_ & _ & Hs').
    destruct (NewNode s k) as [s1 x] eqn:HN.
    pose proof (NewNode_SetNext s k (ptr_head l2)) as HS.
    rewrite HN in HS. simpl in HS.
    rewrite HS in Hs'. simpl in Hs'. clear HS.
    injection HN as <- <-.
    unfold ptr_last in Hs'. unfold linked.
    destruct (last l1) as [[a ka]|] eqn:Hlast.
    + destruct l1 as [|y l1]; [done|].
      assert ((a, ka) ∈ (y :: l1) ++ l2) as Hin.
      { apply elem_of_app. left. by apply last_Some_elem_of. }
      destruct (Chain_lookup _ _ _ _ Hc Hin) as (n & Hn & Hk).
      simpl in Hn, Hk. simpl in Hs'.
      erewrite Node_SetNext_Some in Hs'.
      2:{ simpl. by apply lookup_app_l_Some. }
      injection Hs' as <-. simpl. f_equal.
      rewrite insert_app_l by by eapply lookup_lt_Some.
      by rewrite Hk.
    + apply last_None in Hlast as ->.
      unfold SetBucket_at in Hs'. simpl in Hs'.
      rewrite decide_True in Hs' by done. by injection Hs' as <-.
  - apply Chain_null_inv in Hc as ->.
    exists [], []. split_and!; try done.
    destruct (NewNode s k) as [s1 x] eqn:HN.
    pose proof (NewNode_SetNext s k nullptr) as HS.
    rewrite HN in HS. simpl in HS.
    rewrite HS in Hs'. simpl in Hs'. clear HS.
    injection HN as <- <-.
    unfold SetBucket_at in Hs'. simpl in Hs'.
    rewrite decide_True in Hs' by done. by injection Hs' as <-.
Qed.

(** The bucket chain after the new node has been linked in. *)
Lemma Chain_linked (h : list Node) (k : Key) l2 : ∀ l1 (p : ptr),
  Chain h p (l1 ++ l2) →
  NoDup (l1 ++ l2).*1 →
  Chain (match last l1 with
         | Some (a, ka) => <[a := {| key := ka; next_ := Some (length h) |}]> h
         | None => h
         end ++ [{| key := k; next_ := ptr_head l2 |}])
        (match l1 with [] => Some (length h) | _ :: _ => p end)
        (l1 ++ (length h, k) :: l2).
Proof.
  set (x := {| key := k; next_ := ptr_head l2 |}).
  induction l1 as [|[a ka] l1 IH]; intros p Hc Hnd; simpl in *.
  - apply (Chain_node _ (length h) x); [by apply list_lookup_middle|].
    simpl. rewrite (Chain_head _ _ _ Hc). by apply Chain_grow.
  - inversion Hc as [|a' n l' Ha Hc' E1 E2]; subst.
    apply NoDup_cons in Hnd as [Hna Hnd].
    assert (a < length h) as Hlt by by eapply lookup_lt_Some.
    destruct l1 as [|y l1].
    + simpl in *.
      apply (Chain_node _ a {| key := key n; next_ := Some (length h) |}).
      { rewrite lookup_app_l by by rewrite length_insert.
        by apply list_lookup_insert_eq. }
      simpl. apply (Chain_node _ (length h) x).
      { rewrite lookup_app_r by by rewrite length_insert.
        by rewrite length_insert, Nat.sub_diag. }
      simpl. rewrite (Chain_head _ _ _ Hc').
      apply (Chain_ext h); [done|]. intros z Hz.
      pose proof (Chain_bound _ _ _ _ Hc' Hz).
      rewrite lookup_app_l by by rewrite length_insert.
      apply list_lookup_insert_ne. intros ->.
      apply Hna. apply list_elem_of_fmap. by exists z.
    + specialize (IH _ Hc' Hnd).
      change (last ((a, key n) :: y :: l1)) with (last (y :: l1)).
      apply (Chain_node _ a n); [|done].
      destruct (last (y :: l1)) as [[b kb]|] eqn:Hlast.
      * rewrite lookup_app_l by by rewrite length_insert.
        rewrite list_lookup_insert_ne; [done|]. intros ->.
        apply Hna. apply list_elem_of_fmap. exists (a, kb).
        split; [done|]. apply elem_of_app. left.
        by apply last_Some_elem_of.
      * by apply lookup_app_l_Some.
Qed.

Lemma Inv_bound s ls i l x :
  Inv s ls → ls !! i = Some l → x ∈ l → x.1 < length (arena_ s).
Proof.
  intros HI Hl Hx.
  destruct (Forall2_lookup_r _ _ _ _ _ (inv_chain _ _ HI) Hl)
    as (hd & _ & Hc).
  by eapply Chain_bound.
Qed.

Lemma elem_of_middle {A} (l1 l2 : list A) (x y : A) :
  y ∈ l1 ++ x :: l2 ↔ y = x ∨ y ∈ l1 ++ l2.
Proof. rewrite !elem_of_app, elem_of_cons. tauto. Qed.

(** The invariant survives: the new node joins the chain of its bucket. *)
Lemma linked_Inv s ls k p l1 l2 :
  Inv s ls →
  Transform transform_ (UserKey k) = Ok p →
  ls !! GetHash s p = Some (l1 ++ l2) →
  Inv (linked s (GetHash s p) k l1 l2)
      (<[GetHash s p := l1 ++ (length (arena_ s), k) :: l2]> ls).
Proof.
  intros HI Hp Hi. set (i := GetHash s p) in *.
  set (new := length (arena_ s)).
  assert (i < length ls) as Hlt by by eapply lookup_lt_Some.
  pose proof (Forall2_length _ _ _ (inv_chain _ _ HI)) as Hlen.
  assert (∀ j l x, ls !! j = Some l → x ∈ l → x.1 ≠ new) as Hfresh.
  { intros j l x Hj Hx. pose proof (Inv_bound _ _ _ _ _ HI Hj Hx).
    unfold new. lia. }
  split.
  - simpl. destruct l1; [rewrite length_insert|]; apply (inv_size _ _ HI).
  - apply Forall2_same_length_lookup. split.
    { simpl. rewrite length_insert.
      destruct l1; [rewrite length_insert|]; done. }
    intros j hd l Hhd Hl.
    destruct (decide (j = i)) as [->|Hne].
    + rewrite list_lookup_insert_eq in Hl by done. injection Hl as <-.
      destruct (Forall2_lookup_r _ _ _ _ _ (inv_chain _ _ HI) Hi)
        as (hd0 & Hhd0 & Hc).
      pose proof (Chain_linked _ k l2 l1 hd0 Hc (inv_nodup _ _ HI _ _ Hi)) as HC.
      simpl in *. destruct l1 as [|y l1].
      * rewrite list_lookup_insert_eq in Hhd by lia. by injection Hhd as <-.
      * rewrite Hhd0 in Hhd. by injection Hhd as <-.
    + rewrite list_lookup_insert_ne in Hl by done.
      assert (buckets_ s !! j = Some hd) as Hhd'.
      { simpl in Hhd. destruct l1; [|done].
        by rewrite list_lookup_insert_ne in Hhd. }
      destruct (Inv_bucket _ _ _ _ HI Hhd') as (l' & Hl' & Hc).
      rewrite Hl in Hl'. injection Hl' as <-.
      apply (Chain_ext (arena_ s)); [done|]. intros x Hx. simpl.
      pose proof (Inv_bound _ _ _ _ _ HI Hl Hx).
      rewrite lookup_app_l.
      2:{ destruct (last l1) as [[]|]; [rewrite length_insert|]; done. }
      destruct (last l1) as [[a ka]|] eqn:Hlast; [|done].
      apply list_lookup_insert_ne. intros ->. apply Hne.
      apply (inv_apart _ _ HI j i l (l1 ++ l2) x (x.1, ka)); try done.
      apply elem_of_app. left. by apply last_Some_elem_of.
  - intros j l Hl.
    destruct (decide (j = i)) as [->|Hne].
    + rewrite list_lookup_insert_eq in Hl by done. injection Hl as <-.
      rewrite fmap_app, fmap_cons. apply NoDup_app.
      pose proof (inv_nodup _ _ HI _ _ Hi) as Hnd.
      rewrite fmap_app in Hnd. apply NoDup_app in Hnd as (N1 & N2 & N3).
      split_and!; [done| |].
      * intros a Ha [->|Ha2]%elem_of_cons; [|by eapply N2].
        apply list_elem_of_fmap in Ha as (x & Hx1 & Hx).
        apply (Hfresh i (l1 ++ l2) x); [done| |done].
        apply elem_of_app. by left.
      * apply NoDup_cons. split; [|done].
        intros (x & Hx1 & Hx)%list_elem_of_fmap.
        apply (Hfresh i (l1 ++ l2) x); [done| |done].
        apply elem_of_app. by right.
    + rewrite list_lookup_insert_ne in Hl by done.
      by apply (inv_nodup _ _ HI j).
  - intros j j' lj lj' x y Hj Hj' Hx Hy Hxy.
    destruct (decide (j = i)) as [->|Hne];
      destruct (decide (j' = i)) as [->|Hne']; [done|..].
    + rewrite list_lookup_insert_eq in Hj by done. injection Hj as <-.
      rewrite list_lookup_insert_ne in Hj' by done.
      apply elem_of_middle in Hx as [->|Hx].
      * by destruct (Hfresh _ _ _ Hj' Hy).
      * by apply (inv_apart _ _ HI i j' (l1 ++ l2) lj' x y).
    + rewrite list_lookup_insert_eq in Hj' by done. injection Hj' as <-.
      rewrite list_lookup_insert_ne in Hj by done.
      apply elem_of_middle in Hy as [->|Hy].
      * by destruct (Hfresh _ _ _ Hj Hx).
      * by apply (inv_apart _ _ HI j i lj (l1 ++ l2) x y).
    + rewrite list_lookup_insert_ne in Hj, Hj' by done.
      by apply (inv_apart _ _ HI j j' lj lj' x y).
  - intros j l x Hl Hx.
    change (GetHash (linked s i k l1 l2)) with (GetHash s).
    destruct (decide (j = i)) as [->|Hne].
    + rewrite list_lookup_insert_eq in Hl by done. injection Hl as <-.
      apply elem_of_middle in Hx as [->|Hx]; [by exists p|].
      by apply (inv_slot _ _ HI i (l1 ++ l2)).
    + rewrite list_lookup_insert_ne in Hl by done.
      by apply (inv_slot _ _ HI j l).
Qed.
End InsertFacts.

(** ** Runs of Insert from the empty index *)

Section RunFacts.
Context `{Setting}.
Implicit Types (s : HashLinkListRep) (l : list (nat * Key)).
Implicit Types (ls : list (list (nat * Key))).

Lemma new_Inv n : Inv (HashLinkListRep_new n) (replicate n []).
Proof.
  split; simpl.
  - apply length_replicate.
  - apply Forall2_same_length_lookup. split; [by rewrite !length_replicate|].
    intros i hd l [-> _]%lookup_replicate [-> _]%lookup_replicate.
    constructor.
  - intros i l [-> _]%lookup_replicate. constructor.
  - intros i j li lj x y [-> _]%lookup_replicate _ Hx.
    by apply elem_of_nil in Hx.
  - intros i l x [-> _]%lookup_replicate Hx. by apply elem_of_nil in Hx.
Qed.

Lemma concat_replicate_nil {A} n : concat (replicate n (@nil A)) = [].
Proof. induction n; simpl; done. Qed.

Lemma concat_insert_middle {A} (x : A) (l1 l2 : list A) :
  ∀ (ls : list (list A)) i,
    ls !! i = Some (l1 ++ l2) →
    concat (<[i := l1 ++ x :: l2]> ls) ≡ₚ x :: concat ls.
Proof.
  induction ls as [|l ls IH]; intros [|i] Hi; simpl in *; try done.
  - injection Hi as ->.
    rewrite <- !(assoc_L (++)). simpl. by rewrite <- Permutation_middle.
  - rewrite (IH _ Hi). by rewrite <- Permutation_middle.
Qed.

Lemma elem_of_concat_lookup {A} (ls : list (list A)) (x : A) :
  x ∈ concat ls ↔ ∃ (i : nat) (l0 : list A), ls !! i = Some l0 ∧ x ∈ l0.
Proof.
  rewrite list_elem_of_In, in_concat. split.
  - intros (l & Hl%list_elem_of_In & Hx%list_elem_of_In).
    apply list_elem_of_lookup in Hl as [i Hi]. eauto.
  - intros (i & l & Hi & Hx). exists l.
    rewrite <- !list_elem_of_In. split; [|done].
    apply list_elem_of_lookup. eauto.
Qed.

(** The bucket chains as the code sees them and as the invariant lists
    them are the same. *)
Lemma Inv_view s ls i l :
  Inv s ls → ls !! i = Some l →
  ∃ hd, GetBucket_at s i = Ok hd ∧ Chain (arena_ s) hd l.
Proof.
  intros HI Hl.
  destruct (Forall2_lookup_r _ _ _ _ _ (inv_chain _ _ HI) Hl)
    as (hd & Hhd & Hc).
  exists hd. unfold GetBucket_at. by rewrite Hhd.
Qed.

Lemma Inv_view_inv s ls i hd l :
  Inv s ls → GetBucket_at s i = Ok hd → Chain (arena_ s) hd l →
  ls !! i = Some l.
Proof.
  intros HI Hhd Hc. unfold GetBucket_at in Hhd.
  destruct (buckets_ s !! i) as [hd'|] eqn:Hi; [|done]. injection Hhd as ->.
  destruct (Inv_bucket _ _ _ _ HI Hi) as (l' & Hl' & Hc').
  by rewrite (Chain_det _ _ _ _ Hc Hc').
Qed.

Lemma Inv_slots s ls : Inv s ls → length ls = bucket_size_ s.
Proof.
  intros HI.
  by rewrite <- (Forall2_length _ _ _ (inv_chain _ _ HI)), (inv_size _ _ HI).
Qed.

Lemma InsertAll_app s ks1 ks2 :
  InsertAll s (ks1 ++ ks2) = s1 ← InsertAll s ks1; InsertAll s1 ks2.
Proof.
  revert s. induction ks1 as [|k ks1 IH]; intros s; simpl; [done|].
  destruct (Insert s k); simpl; [apply IH | done].
Qed.

(** One step of a run, on the abstract view. *)
Lemma Insert_step s ls k s' :
  Inv s ls → Insert s k = Ok s' →
  ∃ ls', Inv s' ls' ∧ bucket_size_ s' = bucket_size_ s ∧
         (concat ls').*2 ≡ₚ k :: (concat ls).*2.
Proof.
  intros HI Hs'.
  destruct (Insert_Ok _ _ _ _ HI Hs') as (p & l1 & l2 & Hp & Hi & _ & _ & ->).
  eexists. split_and!; [by apply linked_Inv|done|].
  by rewrite (concat_insert_middle _ _ _ _ _ Hi).
Qed.

Lemma InsertAll_Ok ks : ∀ s ls s',
  Inv s ls → InsertAll s ks = Ok s' →
  ∃ ls', Inv s' ls' ∧ bucket_size_ s' = bucket_size_ s ∧
         (concat ls').*2 ≡ₚ (concat ls).*2 ++ ks.
Proof.
  induction ks as [|k ks IH]; intros s ls s' HI Hs'; simpl in Hs'.
  - injection Hs' as <-. exists ls. by rewrite (right_id_L [] (++)).
  - apply bind_Ok in Hs' as (s1 & Hs1 & Hs').
    destruct (Insert_step _ _ _ _ HI Hs1) as (ls1 & HI1 & Hb1 & Hk1).
    destruct (IH _ _ _ HI1 Hs') as (ls' & HI' & Hb' & Hk').
    exists ls'. split_and!; [done|congruence|].
    by rewrite Hk', Hk1, <- Permutation_middle.
Qed.

(** A run that returns was given keys in the domain of the extractor and,
    unless it is empty, an index with at least one bucket. *)
Lemma InsertAll_Ok_pre ks : ∀ s ls s',
  Inv s ls → InsertAll s ks = Ok s' →
  transformable ks ∧ (ks ≠ [] → 0 < bucket_size_ s).
Proof.
  induction ks as [|k ks IH]; intros s ls s' HI Hs'; simpl in Hs'.
  - split; [constructor|done].
  - apply bind_Ok in Hs' as (s1 & Hs1 & Hs').
    destruct (Insert_Ok _ _ _ _ HI Hs1) as (p & l1 & l2 & Hp & Hi & _).
    destruct (Insert_step _ _ _ _ HI Hs1) as (ls1 & HI1 & _).
    destruct (IH _ _ _ HI1 Hs') as [Hdom _].
    split.
    + constructor; [by exists p | done].
    + intros _. apply lookup_lt_Some in Hi.
      rewrite (Inv_slots _ _ HI) in Hi. lia.
Qed.

Lemma run_Inv n ks s :
  InsertAll (HashLinkListRep_new n) ks = Ok s →
  ∃ ls, Inv s ls ∧ bucket_size_ s = n ∧ (concat ls).*2 ≡ₚ ks.
Proof.
  intros Hs.
  destruct (InsertAll_Ok _ _ _ _ (new_Inv n) Hs) as (ls & HI & Hb & Hk).
  exists ls. split_and!; [done..|].
  by rewrite Hk, concat_replicate_nil.
Qed.

(** Where an entry of the view lives. *)
Lemma Inv_holds s ls k :
  Inv s ls → k ∈ (concat ls).*2 →
  ∃ p hd l a, Transform transform_ (UserKey k) = Ok p ∧
    GetBucket s p = Ok hd ∧ Chain (arena_ s) hd l ∧ (a, k) ∈ l.
Proof.
  intros HI ([a k'] & -> & Hx)%list_elem_of_fmap.
  apply elem_of_concat_lookup in Hx as (i & l & Hl & Hx).
  destruct (inv_slot _ _ HI _ _ _ Hl Hx) as (p & Hp & <-).
  destruct (Inv_view _ _ _ _ HI Hl) as (hd & Hhd & Hc).
  by exists p, hd, l, a.
Qed.
End RunFacts.

(** C3: at every point of a run of inserts, every node reachable from
    bucket [i] holds an entry whose extracted prefix hashes (MurmurHash,
    seed 0, modulo the bucket count) to [i], and every entry inserted so
    far is held by the bucket at that index. *)
Theorem entries_live_in_the_slot_of_their_prefix
    `{Setting} (n : nat) (ks : list Key) (s : HashLinkListRep) :
  InsertAll (HashLinkListRep_new n) ks = Ok s →
  ∀ m, ∃ sm,
    InsertAll (HashLinkListRep_new n) (take m ks) = Ok sm ∧
    bucket_size_ sm = n ∧
    (∀ i hd l a k, GetBucket_at sm i = Ok hd → Chain (arena_ sm) hd l →
       (a, k) ∈ l →
       ∃ p, Transform transform_ (UserKey k) = Ok p ∧
            MurmurHash p 0 `mod` n = i) ∧
    (∀ k, k ∈ take m ks →
       ∃ p hd l a, Transform transform_ (UserKey k) = Ok p ∧
         GetBucket_at sm (MurmurHash p 0 `mod` n) = Ok hd ∧
         Chain (arena_ sm) hd l ∧ (a, k) ∈ l).
Proof.
  intros Hs m. rewrite <- (take_drop m ks), InsertAll_app in Hs.
  apply bind_Ok in Hs as (sm & Hsm & _). exists sm.
  destruct (run_Inv _ _ _ Hsm) as (ls & HI & Hb & Hk).
  split_and!; [done..| |].
  - intros i hd l a k Hhd Hc Hx.
    pose proof (Inv_view_inv _ _ _ _ _ HI Hhd Hc) as Hl.
    destruct (inv_slot _ _ HI _ _ _ Hl Hx) as (p & Hp & Hi).
    exists p. split; [done|]. unfold GetHash in Hi. by rewrite Hb in Hi.
  - intros k Hin. rewrite <- Hk in Hin.
    destruct (Inv_holds _ _ _ HI Hin) as (p & hd & l & a & Hp & Hhd & Hc & Hx).
    exists p, hd, l, a. split_and!; try done.
    unfold GetBucket, GetHash in Hhd. by rewrite Hb in Hhd.
Qed.

(** ** Consequences of a three-way total order *)

Section OrderFacts.
Context `{Setting}.
Hypothesis three_way : ThreeWay.

Lemma compare_refl a : compare_ a a = 0%Z.
Proof. pose proof (compare_flip three_way a a). lia. Qed.

Lemma compare_eq_sym a b : compare_ a b = 0%Z → compare_ b a = 0%Z.
Proof.
  pose proof (compare_flip three_way a b).
  pose proof (compare_flip three_way b a). lia.
Qed.

Lemma compare_ne_sym a b : compare_ a b ≠ 0%Z → compare_ b a ≠ 0%Z.
Proof. intros Hab Hba. by apply Hab, compare_eq_sym. Qed.

Lemma key_lt_trans a b c : key_lt a b → key_lt b c → key_lt a c.
Proof.
  unfold key_lt. intros Hab Hbc.
  pose proof (compare_trans three_way a b c).
  pose proof (compare_trans three_way c a b).
  pose proof (compare_flip three_way a c).
  pose proof (compare_flip three_way c a).
  pose proof (compare_flip three_way b c).
  lia.
Qed.

Lemma key_lt_not_eq a b : key_lt a b → compare_ b a ≠ 0%Z.
Proof. unfold key_lt. pose proof (compare_flip three_way a b). lia. Qed.

Lemma key_lt_total a b : ¬ key_lt a b → compare_ b a ≠ 0%Z → key_lt b a.
Proof.
  unfold key_lt.
  pose proof (compare_flip three_way a b).
  pose proof (compare_flip three_way b a). lia.
Qed.

(** The first entry that is not smaller than [k] is the only candidate
    for being equal to [k]. *)
Lemma equal_after_first a b k :
  ¬ key_lt a k → key_lt a b → compare_ k b = 0%Z → compare_ k a = 0%Z.
Proof.
  unfold key_lt. intros Hak Hab Hkb.
  pose proof (compare_trans three_way a b k).
  pose proof (compare_flip three_way a k).
  pose proof (compare_flip three_way k a).
  pose proof (compare_flip three_way b k).
  pose proof (compare_flip three_way k b).
  lia.
Qed.

Lemma Equal_false a b : Equal a b = false ↔ compare_ a b ≠ 0%Z.
Proof. unfold Equal. apply Z.eqb_neq. Qed.

Lemma Equal_true a b : Equal a b = true ↔ compare_ a b = 0%Z.
Proof. unfold Equal. apply Z.eqb_eq. Qed.

(** *** Pairwise non-equal keys *)

Lemma distinct_cons k ks :
  distinct (k :: ks) = true ↔
  Forall (λ k', compare_ k k' ≠ 0%Z) ks ∧ distinct ks = true.
Proof.
  simpl. rewrite andb_true_iff, forallb_forall, Forall_forall.
  split; intros [H1 H2]; (split; [|done]); intros x Hx.
  - apply Equal_false, negb_true_iff. by apply H1, list_elem_of_In.
  - apply negb_true_iff, Equal_false. by apply H1, list_elem_of_In.
Qed.

Lemma distinct_perm ks ks' :
  ks ≡ₚ ks' → distinct ks = true → distinct ks' = true.
Proof.
  induction 1 as [|k ks ks' Hp IH|k1 k2 ks|ks1 ks2 ks3 _ IH1 _ IH2];
    [done| | |by auto].
  - rewrite !distinct_cons. intros [H1 H2]. split; [|by auto].
    by rewrite <- Hp.
  - rewrite !distinct_cons.
    intros [[H12 H1]%Forall_cons [H2 H3]]. split_and!; try done.
    constructor; [|done]. by apply compare_ne_sym.
Qed.

Lemma distinct_app ks1 ks2 a b :
  distinct (ks1 ++ ks2) = true → a ∈ ks1 → b ∈ ks2 → compare_ a b ≠ 0%Z.
Proof.
  induction ks1 as [|k ks1 IH]; intros Hd Ha Hb.
  - by apply elem_of_nil in Ha.
  - change ((k :: ks1) ++ ks2) with (k :: ks1 ++ ks2) in Hd.
    apply distinct_cons in Hd as [Hk Hd].
    apply elem_of_cons in Ha as [->|Ha]; [|by apply IH].
    rewrite Forall_forall in Hk. apply Hk.
    apply elem_of_app. by right.
Qed.

Lemma distinct_app_l ks1 ks2 :
  distinct (ks1 ++ ks2) = true → distinct ks1 = true.
Proof.
  induction ks1 as [|k ks1 IH]; [done|].
  change ((k :: ks1) ++ ks2) with (k :: ks1 ++ ks2).
  rewrite !distinct_cons. intros [Hk Hd]. split; [|by apply IH].
  by apply Forall_app in Hk as [Hk _].
Qed.

(** *** Putting a key in its place keeps a list sorted *)

Lemma sorted_middle (l1 l2 : list Key) (k : Key) :
  StronglySorted key_lt (l1 ++ l2) →
  Forall (λ x, key_lt x k) l1 →
  (∀ x, head l2 = Some x → ¬ key_lt x k) →
  Forall (λ x, compare_ k x ≠ 0%Z) l2 →
  StronglySorted key_lt (l1 ++ k :: l2).
Proof.
  intros Hs H1 H2 Hne.
  apply StronglySorted_app in Hs as (H12 & Hs1 & Hs2).
  assert (Forall (key_lt k) l2) as Hk.
  { destruct l2 as [|y l2]; [done|].
    apply Forall_cons in Hne as [Hy _].
    assert (key_lt k y) as Hky by (apply key_lt_total; auto).
    constructor; [done|].
    apply StronglySorted_inv in Hs2 as [_ Hs2].
    eapply Forall_impl; [done|]. intros z Hz. by eapply key_lt_trans. }
  apply StronglySorted_app. split_and!; [|done|by constructor].
  intros x1 x2 Hx1 [->|Hx2]%elem_of_cons; [|by apply H12].
  rewrite Forall_forall in H1. by apply H1.
Qed.
End OrderFacts.

(** ** Lookups in an ordered index *)

Section LookupFacts.
Context `{Setting}.
Hypothesis three_way : ThreeWay.
Implicit Types (s : HashLinkListRep) (l : list (nat * Key)).
Implicit Types (ls : list (list (nat * Key))).
Local Arguments Node_key : simpl never.

Lemma Ordered_lookup ls i l :
  Ordered ls → ls !! i = Some l → StronglySorted key_lt l.*2.
Proof. intros Ho Hl. by apply (Forall_lookup_1 _ _ _ _ Ho Hl). Qed.

Lemma Inv_fuel s ls i l :
  Inv s ls → ls !! i = Some l → length l < walk_fuel s.
Proof.
  intros HI Hl. destruct (Inv_view _ _ _ _ HI Hl) as (hd & _ & Hc).
  pose proof (Chain_length _ _ _ Hc (inv_nodup _ _ HI _ _ Hl)).
  unfold walk_fuel. lia.
Qed.

(** Both walks finish on a bucket of an ordered index, at the first node
    that is not smaller than the key. *)
Lemma walk_Ok s ls i hd l k :
  Inv s ls → Ordered ls → ls !! i = Some l → Chain (arena_ s) hd l →
  ∃ l1 l2, l = l1 ++ l2 ∧
    Forall (λ x, key_lt x.2 k) l1 ∧
    (∀ x, head l2 = Some x → ¬ key_lt x.2 k) ∧
    Insert_loop (walk_fuel s) s hd nullptr hd k
      = Ok (ptr_last nullptr l1, ptr_head l2) ∧
    FindGreaterOrEqualInBucket s hd k = Ok (ptr_head l2).
Proof.
  intros HI Ho Hl Hc.
  destruct (Insert_loop_total (walk_fuel s) s hd k l nullptr hd Hc)
    as [r Hr]; [by eapply Inv_fuel | right; by eapply Ordered_lookup |].
  destruct (Insert_loop_Ok _ _ _ _ _ _ _ _ Hc Hr)
    as (l1 & l2 & -> & H1 & H2 & ->).
  exists l1, l2. split_and!; try done.
  unfold FindGreaterOrEqualInBucket.
  by rewrite (Find_loop_Insert_loop _ _ _ _ nullptr), Hr.
Qed.

Lemma existsb_smaller l1 k :
  Forall (λ x, key_lt x.2 k) l1 → existsb (λ x, Equal k x.2) l1 = false.
Proof.
  induction 1 as [|x l1 Hx _ IH]; simpl; [done|].
  rewrite IH, orb_false_r. by apply Equal_false, key_lt_not_eq.
Qed.

Lemma existsb_first (x : nat * Key) l2 k :
  StronglySorted key_lt (x :: l2).*2 → ¬ key_lt x.2 k →
  existsb (λ y, Equal k y.2) (x :: l2) = Equal k x.2.
Proof.
  intros Hs Hx. simpl.
  destruct (existsb (λ y, Equal k y.2) l2) eqn:He; [|apply orb_false_r].
  rewrite orb_true_r. symmetry.
  apply existsb_exists in He as (y & Hy%list_elem_of_In & Hky%Equal_true).
  apply Equal_true.
  apply (equal_after_first three_way x.2 y.2); [done| |done].
  rewrite fmap_cons in Hs. apply StronglySorted_inv in Hs as [_ Hs].
  rewrite Forall_forall in Hs. apply Hs, list_elem_of_fmap. by exists y.
Qed.

(** [Contains] on an ordered index: derive the prefix and the bucket,
    find the first node that is not smaller, report whether it exists and
    compares equal; that is the case exactly when some entry of the
    bucket compares equal. *)
Lemma Contains_how s ls k p :
  Inv s ls → Ordered ls → 0 < bucket_size_ s →
  Transform transform_ (UserKey k) = Ok p →
  ∃ hd l l1 l2,
    ls !! GetHash s p = Some l ∧
    GetBucket s p = Ok hd ∧ Chain (arena_ s) hd l ∧ l = l1 ++ l2 ∧
    Forall (λ x, key_lt x.2 k) l1 ∧
    (∀ x, head l2 = Some x → ¬ key_lt x.2 k) ∧
    FindGreaterOrEqualInBucket s hd k = Ok (ptr_head l2) ∧
    Contains s k = Ok (match head l2 with
                       | Some x => Equal k x.2
                       | None => false
                       end) ∧
    Contains s k = Ok (existsb (λ x, Equal k x.2) l).
Proof.
  intros HI Ho Hpos Hp.
  assert (GetHash s p < length ls) as Hlt.
  { rewrite (Inv_slots _ _ HI). unfold GetHash. apply Nat.mod_upper_bound. lia. }
  apply lookup_lt_is_Some in Hlt as [l Hl].
  destruct (Inv_view _ _ _ _ HI Hl) as (hd & Hhd & Hc).
  destruct (walk_Ok s ls _ hd l k HI Ho Hl Hc)
    as (l1 & l2 & -> & H1 & H2 & _ & HF).
  exists hd, (l1 ++ l2), l1, l2.
  assert (Contains s k = Ok (match head l2 with
                             | Some x => Equal k x.2
                             | None => false
                             end)) as HC.
  { unfold Contains. rewrite Hp. simpl. unfold GetBucket. rewrite Hhd. simpl.
    destruct hd as [a|].
    - unfold BucketContains. rewrite HF. simpl.
      destruct l2 as [|[b kb] l2]; simpl; [done|].
      assert ((b, kb) ∈ l1 ++ (b, kb) :: l2) as Hin.
      { apply elem_of_app. right. by left. }
      destruct (Chain_lookup _ _ _ _ Hc Hin) as (n & Hn & Hk).
      simpl in Hn, Hk. change (ptr_head ((b, kb) :: l2)) with (Some b).
      rewrite (Node_key_Some _ _ _ Hn). simpl. by rewrite Hk.
    - apply Chain_null_inv in Hc.
      by destruct l1, l2. }
  split_and!; try done.
  rewrite HC. f_equal.
  rewrite existsb_app, (existsb_smaller _ _ H1). simpl.
  destruct l2 as [|x l2]; [done|].
  symmetry. apply existsb_first; [|by apply H2].
  pose proof (Ordered_lookup _ _ _ Ho Hl) as Hs.
  rewrite fmap_app in Hs. by apply StronglySorted_app_1_r in Hs.
Qed.

Lemma Contains_true s ls k :
  Inv s ls → Ordered ls → 0 < bucket_size_ s →
  k ∈ (concat ls).*2 → Contains s k = Ok true.
Proof.
  intros HI Ho Hpos ([a k'] & -> & Hx)%list_elem_of_fmap.
  apply elem_of_concat_lookup in Hx as (i & l & Hl & Hx).
  destruct (inv_slot _ _ HI _ _ _ Hl Hx) as (p & Hp & <-). simpl in *.
  destruct (Contains_how s ls k' p HI Ho Hpos Hp)
    as (hd & l' & l1 & l2 & Hl' & _ & _ & _ & _ & _ & _ & _ & ->).
  f_equal. apply existsb_exists. exists (a, k').
  split; [|by apply Equal_true, compare_refl].
  apply list_elem_of_In. congruence.
Qed.

Lemma Contains_false s ls k :
  Inv s ls → Ordered ls → 0 < bucket_size_ s →
  is_Ok (Transform transform_ (UserKey k)) →
  Forall (λ x, compare_ k x ≠ 0%Z) (concat ls).*2 →
  Contains s k = Ok false.
Proof.
  intros HI Ho Hpos [p Hp] Hne.
  destruct (Contains_how s ls k p HI Ho Hpos Hp)
    as (hd & l & l1 & l2 & Hl & _ & _ & _ & _ & _ & _ & _ & ->).
  f_equal. apply not_true_is_false.
  intros (x & Hx%list_elem_of_In & Hkx%Equal_true)%existsb_exists.
  rewrite Forall_forall in Hne. apply (Hne x.2); [|done].
  apply list_elem_of_fmap. exists x. split; [done|].
  apply elem_of_concat_lookup. eauto.
Qed.
End LookupFacts.

(** ** Insert of a fresh key into an ordered index *)

Section FreshInsertFacts.
Context `{Setting}.
Hypothesis three_way : ThreeWay.
Implicit Types (s : HashLinkListRep) (l : list (nat * Key)).
Implicit Types (ls : list (list (nat * Key))).
Local Arguments Node_key : simpl never.
Local Arguments Node_SetNext : simpl never.
Local Arguments NewNode : simpl never.
Local Arguments Insert_loop : simpl never.

(** No assertion fires and the walk finishes. *)
Lemma Insert_returns s ls k :
  Inv s ls → Ordered ls → 0 < bucket_size_ s →
  is_Ok (Transform transform_ (UserKey k)) →
  Forall (λ x, compare_ k x ≠ 0%Z) (concat ls).*2 →
  is_Ok (Insert s k).
Proof.
  intros HI Ho Hpos [p Hp] Hne. unfold Insert.
  rewrite assert_pass.
  2:{ by rewrite (Contains_false three_way s ls k HI Ho Hpos (ex_intro _ p Hp) Hne). }
  simpl. rewrite Hp. simpl.
  destruct (Contains_how three_way s ls k p HI Ho Hpos Hp)
    as (hd & l & _ & _ & Hl & Hhd & Hc & _).
  unfold GetBucket in Hhd. rewrite Hhd. simpl.
  assert (GetHash s p < length (buckets_ s)) as Hlt.
  { unfold GetBucket_at in Hhd.
    destruct (buckets_ s !! GetHash s p) eqn:E; [|done].
    by eapply lookup_lt_Some. }
  pose proof (NewNode_SetNext s k) as HS. unfold NewNode in HS. simpl in HS.
  destruct hd as [a0|].
  - destruct (walk_Ok s ls _ _ l k HI Ho Hl Hc)
      as (l1 & l2 & -> & H1 & H2 & -> & _).
    simpl. rewrite assert_pass.
    2:{ destruct l2 as [|[b kb] l2]; [done|].
        change (ptr_head ((b, kb) :: l2)) with (Some b).
        assert ((b, kb) ∈ l1 ++ (b, kb) :: l2) as Hin.
        { apply elem_of_app. right. by left. }
        destruct (Chain_lookup _ _ _ _ Hc Hin) as (n & Hn & Hk).
        simpl in Hn, Hk. rewrite (Node_key_Some _ _ _ Hn). simpl.
        f_equal. rewrite Hk. apply negb_true_iff, Equal_false.
        rewrite Forall_forall in Hne. apply Hne.
        apply list_elem_of_fmap. exists (b, kb). split; [done|].
        apply elem_of_concat_lookup. eauto. }
    simpl. rewrite HS. simpl.
    unfold ptr_last. destruct (last l1) as [[a ka]|] eqn:Hlast.
    + assert ((a, ka) ∈ l1 ++ l2) as Hin.
      { apply elem_of_app. left. by apply last_Some_elem_of. }
      destruct (Chain_lookup _ _ _ _ Hc Hin) as (n & Hn & Hk).
      erewrite Node_SetNext_Some; [by eexists|].
      simpl. by apply lookup_app_l_Some.
    + unfold SetBucket_at. simpl. rewrite decide_True by done. by eexists.
  - rewrite HS. simpl.
    unfold SetBucket_at. simpl. rewrite decide_True by done. by eexists.
Qed.

Lemma linked_Ordered ls i k a l1 l2 :
  Ordered ls →
  ls !! i = Some (l1 ++ l2) →
  Forall (λ x, key_lt x.2 k) l1 →
  (∀ x, head l2 = Some x → ¬ key_lt x.2 k) →
  Forall (λ x, compare_ k x ≠ 0%Z) (concat ls).*2 →
  Ordered (<[i := l1 ++ (a, k) :: l2]> ls).
Proof.
  intros Ho Hi H1 H2 Hne. apply Forall_insert; [done|].
  pose proof (Ordered_lookup _ _ _ Ho Hi) as Hs.
  rewrite fmap_app in Hs. rewrite fmap_app, fmap_cons.
  apply (sorted_middle three_way); [done| | |].
  - by apply Forall_fmap.
  - intros kx Hkx. destruct l2 as [|x l2]; [done|].
    injection Hkx as <-. by apply H2.
  - apply Forall_forall. intros kx (x & -> & Hx)%list_elem_of_fmap.
    rewrite Forall_forall in Hne. apply Hne.
    apply list_elem_of_fmap. exists x. split; [done|].
    apply elem_of_concat_lookup. exists i, (l1 ++ l2). split; [done|].
    apply elem_of_app. by right.
Qed.

(** One [Insert] of a fresh key: it returns, and the index stays ordered. *)
Lemma Insert_fresh s ls k :
  Inv s ls → Ordered ls → 0 < bucket_size_ s →
  is_Ok (Transform transform_ (UserKey k)) →
  Forall (λ x, compare_ k x ≠ 0%Z) (concat ls).*2 →
  ∃ s' p l1 l2,
    Insert s k = Ok s' ∧
    Transform transform_ (UserKey k) = Ok p ∧
    ls !! GetHash s p = Some (l1 ++ l2) ∧
    let ls' := <[GetHash s p := l1 ++ (length (arena_ s), k) :: l2]> ls in
    Inv s' ls' ∧ Ordered ls' ∧ bucket_size_ s' = bucket_size_ s ∧
    (concat ls').*2 ≡ₚ k :: (concat ls).*2.
Proof.
  intros HI Ho Hpos Hdom Hne.
  destruct (Insert_returns s ls k HI Ho Hpos Hdom Hne) as [s' Hs'].
  destruct (Insert_Ok _ _ _ _ HI Hs') as (p & l1 & l2 & Hp & Hi & H1 & H2 & ->).
  exists (linked s (GetHash s p) k l1 l2), p, l1, l2.
  do 3 (split; [done|]). cbv zeta. split_and!; try done.
  - by apply linked_Inv.
  - by apply linked_Ordered.
  - by rewrite (concat_insert_middle _ _ _ _ _ Hi).
Qed.

Lemma new_Ordered n : Ordered (replicate n []).
Proof. apply Forall_replicate. constructor. Qed.

(** A run of pairwise non-equal keys, none of them already present. *)
Lemma InsertAll_fresh ks : ∀ s ls,
  Inv s ls → Ordered ls → 0 < bucket_size_ s →
  transformable ks →
  distinct ((concat ls).*2 ++ ks) = true →
  ∃ s' ls', InsertAll s ks = Ok s' ∧
    Inv s' ls' ∧ Ordered ls' ∧ bucket_size_ s' = bucket_size_ s ∧
    (concat ls').*2 ≡ₚ (concat ls).*2 ++ ks.
Proof.
  induction ks as [|k ks IH]; intros s ls HI Ho Hpos Hdom Hd.
  - exists s, ls. by rewrite (right_id_L [] (++)).
  - apply Forall_cons in Hdom as [Hk Hdom].
    destruct (Insert_fresh s ls k HI Ho Hpos Hk)
      as (s1 & p & l1 & l2 & Hs1 & _ & _ & HI1 & Ho1 & Hb1 & Hk1).
    { apply Forall_forall. intros x Hx.
      apply (compare_ne_sym three_way).
      apply (distinct_app _ _ x k Hd Hx). by left. }
    destruct (IH s1 _ HI1 Ho1) as (s' & ls' & Hs' & HI' & Ho' & Hb' & Hk');
      [lia|done| |].
    { apply (distinct_perm three_way ((concat ls).*2 ++ k :: ks)); [|done].
      by rewrite Hk1, <- Permutation_middle. }
    exists s', ls'. simpl. rewrite Hs1. simpl.
    split_and!; [done..|congruence|].
    by rewrite Hk', Hk1, <- Permutation_middle.
Qed.

Lemma run_fresh n ks :
  0 < n → transformable ks → distinct ks = true →
  ∃ s ls, InsertAll (HashLinkListRep_new n) ks = Ok s ∧
    Inv s ls ∧ Ordered ls ∧ bucket_size_ s = n ∧ (concat ls).*2 ≡ₚ ks.
Proof.
  intros Hn Hdom Hd.
  destruct (InsertAll_fresh ks _ _ (new_Inv n) (new_Ordered n))
    as (s & ls & Hs & HI & Ho & Hb & Hk); [done|done| |].
  { by rewrite concat_replicate_nil. }
  exists s, ls. split_and!; [done..|].
  by rewrite Hk, concat_replicate_nil.
Qed.

(** The view of the state a returned run of pairwise non-equal keys has
    built. *)
Lemma run_Ordered n ks s :
  distinct ks = true →
  InsertAll (HashLinkListRep_new n) ks = Ok s →
  ∃ ls, Inv s ls ∧ Ordered ls ∧ bucket_size_ s = n ∧ (concat ls).*2 ≡ₚ ks.
Proof.
  intros Hd Hs.
  destruct (InsertAll_Ok_pre _ _ _ _ (new_Inv n) Hs) as [Hdom Hn].
  destruct ks as [|k ks].
  - injection Hs as <-. exists (replicate n []).
    split_and!; [apply new_Inv|apply new_Ordered|done|].
    by rewrite concat_replicate_nil.
  - destruct (run_fresh n (k :: ks)) as (s0 & ls & Hs0 & HI & Ho & Hb & Hk);
      [by apply Hn|done|done|].
    rewrite Hs in Hs0. injection Hs0 as <-. by exists ls.
Qed.
End FreshInsertFacts.

(** ** Lookups across inserts *)

Section MonotoneFacts.
Context `{Setting}.
Hypothesis three_way : ThreeWay.
Implicit Types (s : HashLinkListRep) (l : list (nat * Key)).
Implicit Types (ls : list (list (nat * Key))).

Lemma Contains_Ok_transform s k b :
  Contains s k = Ok b → is_Ok (Transform transform_ (UserKey k)).
Proof. unfold Contains. intros (p & Hp & _)%bind_Ok. by exists p. Qed.

Lemma existsb_middle {A} (f : A → bool) (l1 l2 : list A) (x : A) :
  existsb f (l1 ++ l2) = true → existsb f (l1 ++ x :: l2) = true.
Proof.
  rewrite !existsb_app. simpl.
  destruct (existsb f l1), (f x), (existsb f l2); done.
Qed.

(** A successful lookup survives the insert of a fresh key. *)
Lemma Contains_Insert_fresh s ls k e :
  Inv s ls → Ordered ls → 0 < bucket_size_ s →
  is_Ok (Transform transform_ (UserKey k)) →
  Forall (λ x, compare_ k x ≠ 0%Z) (concat ls).*2 →
  Contains s e = Ok true →
  ∃ s' ls', Insert s k = Ok s' ∧
    Inv s' ls' ∧ Ordered ls' ∧ bucket_size_ s' = bucket_size_ s ∧
    (concat ls').*2 ≡ₚ k :: (concat ls).*2 ∧
    Contains s' e = Ok true.
Proof.
  intros HI Ho Hpos Hdom Hne He.
  destruct (Insert_fresh three_way s ls k HI Ho Hpos Hdom Hne)
    as (s' & p & l1 & l2 & Hs' & Hp & Hi & HI' & Ho' & Hb' & Hk').
  eexists s', _. split_and!; try done.
  destruct (Contains_Ok_transform _ _ _ He) as [pe Hpe].
  destruct (Contains_how three_way s ls e pe HI Ho Hpos Hpe)
    as (_ & l & _ & _ & Hl & _ & _ & _ & _ & _ & _ & _ & HC).
  rewrite HC in He. injection He as He.
  destruct (Contains_how three_way s' _ e pe HI' Ho') as
    (_ & l' & _ & _ & Hl' & _ & _ & _ & _ & _ & _ & _ & ->); [lia|done|].
  f_equal.
  assert (GetHash s' pe = GetHash s pe) as Hh.
  { unfold GetHash. by rewrite Hb'. }
  rewrite Hh in Hl'.
  destruct (decide (GetHash s pe = GetHash s p)) as [Heq|Hneq].
  - rewrite Heq in Hl, Hl'.
    rewrite list_lookup_insert_eq in Hl' by by eapply lookup_lt_Some.
    injection Hl' as <-. rewrite Hi in Hl. injection Hl as <-.
    by apply existsb_middle.
  - rewrite list_lookup_insert_ne in Hl' by done. congruence.
Qed.

Lemma Contains_InsertAll_fresh ks e : ∀ s ls,
  Inv s ls → Ordered ls → 0 < bucket_size_ s →
  transformable ks →
  distinct ((concat ls).*2 ++ ks) = true →
  Contains s e = Ok true →
  ∃ s', InsertAll s ks = Ok s' ∧ Contains s' e = Ok true.
Proof.
  induction ks as [|k ks IH]; intros s ls HI Ho Hpos Hdom Hd He.
  - by exists s.
  - apply Forall_cons in Hdom as [Hk Hdom].
    destruct (Contains_Insert_fresh s ls k e HI Ho Hpos Hk)
      as (s1 & ls1 & Hs1 & HI1 & Ho1 & Hb1 & Hk1 & He1); [|done|].
    { apply Forall_forall. intros x Hx.
      apply (compare_ne_sym three_way).
      apply (distinct_app _ _ x k Hd Hx). by left. }
    destruct (IH s1 ls1 HI1 Ho1) as (s' & Hs' & He'); [lia|done| |done|].
    { apply (distinct_perm three_way ((concat ls).*2 ++ k :: ks)); [|done].
      by rewrite Hk1, <- Permutation_middle. }
    exists s'. simpl. by rewrite Hs1.
Qed.
End MonotoneFacts.

(** ** The index after a run of non-duplicate inserts *)

(** C1: for every run of [Insert] calls whose keys are pairwise non-equal
    under the comparator (a three-way total order), after the run has
    completed the chain of successor links from the head of every bucket is
    strictly increasing under the comparator; and the run does complete
    when the bucket count is positive and the keys are in the domain of the
    extractor. *)
Theorem buckets_strictly_increasing
    `{Setting} (n : nat) (ks : list Key) :
  ThreeWay → distinct ks = true →
  (∀ s, InsertAll (HashLinkListRep_new n) ks = Ok s →
     ∀ i, i < n →
       ∃ hd l, GetBucket_at s i = Ok hd ∧ Chain (arena_ s) hd l ∧
               StronglySorted key_lt l.*2) ∧
  (0 < n → transformable ks →
     ∃ s, InsertAll (HashLinkListRep_new n) ks = Ok s).
Proof.
  intros HT Hd. split.
  - intros s Hs i Hi.
    destruct (run_Ordered HT n ks s Hd Hs) as (ls & HI & Ho & Hb & _).
    assert (i < length ls) as Hlt by by rewrite (Inv_slots _ _ HI), Hb.
    apply lookup_lt_is_Some in Hlt as [l Hl].
    destruct (Inv_view _ _ _ _ HI Hl) as (hd & Hhd & Hc).
    exists hd, l. split_and!; [done..|]. by eapply Ordered_lookup.
  - intros Hn Hdom.
    destruct (run_fresh HT n ks Hn Hdom Hd) as (s & _ & Hs & _). by exists s.
Qed.

(** C2: after a run of non-duplicate inserts (comparator a three-way total
    order, bucket count positive), [Contains e] returns true for every
    inserted [e] and false for every [e'] that was never inserted, whether
    its bucket is empty or not: for every [e'] that compares equal to no
    inserted entry, hence, when entries that compare equal are the same
    entry, for every [e'] outside the run.  [Contains] derives the prefix
    and the bucket of its argument, finds the first node of the bucket
    whose key is not smaller than the argument, and returns true iff that
    node exists and compares equal.  The run completes when its keys are
    in the domain of the extractor. *)
Theorem contains_exactly_the_inserted
    `{Setting} (n : nat) (ks : list Key) :
  ThreeWay → 0 < n → distinct ks = true →
  (∀ s, InsertAll (HashLinkListRep_new n) ks = Ok s →
    (∀ e, e ∈ ks → Contains s e = Ok true) ∧
    (∀ e', is_Ok (Transform transform_ (UserKey e')) →
       Forall (λ e, compare_ e' e ≠ 0%Z) ks → Contains s e' = Ok false) ∧
    (Separating →
     ∀ e', is_Ok (Transform transform_ (UserKey e')) →
       e' ∉ ks → Contains s e' = Ok false) ∧
    (∀ e p, Transform transform_ (UserKey e) = Ok p →
       ∃ hd l l1 l2,
         GetBucket s p = Ok hd ∧ Chain (arena_ s) hd l ∧ l = l1 ++ l2 ∧
         Forall (λ x, key_lt x.2 e) l1 ∧
         (∀ x, head l2 = Some x → ¬ key_lt x.2 e) ∧
         FindGreaterOrEqualInBucket s hd e = Ok (ptr_head l2) ∧
         Contains s e = Ok (match head l2 with
                            | Some x => Equal e x.2
                            | None => false
                            end))) ∧
  (transformable ks → ∃ s, InsertAll (HashLinkListRep_new n) ks = Ok s).
Proof.
  intros HT Hn Hd. split.
  - intros s Hs.
    destruct (run_Ordered HT n ks s Hd Hs) as (ls & HI & Ho & Hb & Hk).
    assert (0 < bucket_size_ s) as Hpos by lia.
    split_and!.
    + intros e He. apply (Contains_true HT s ls); try done. by rewrite Hk.
    + intros e' Hdom' He'. apply (Contains_false HT s ls); try done.
      by rewrite Hk.
    + intros Hsep e' Hdom' He'. apply (Contains_false HT s ls); try done.
      apply Forall_forall. intros x Hx Hc. apply He'.
      rewrite (Hsep _ _ Hc). by rewrite <- Hk.
    + intros e p Hp.
      destruct (Contains_how HT s ls e p HI Ho Hpos Hp)
        as (hd & l & l1 & l2 & _ & H1 & H2 & H3 & H4 & H5 & H6 & H7 & _).
      by exists hd, l, l1, l2.
  - intros Hdom.
    destruct (run_fresh HT n ks Hn Hdom Hd) as (s & _ & Hs & _). by exists s.
Qed.

(** C7: once [Contains e] returns true in a state reached by non-duplicate
    inserts, it still returns true after any further inserts of
    non-duplicate entries; those complete when the entries are in the
    domain of the extractor. *)
Theorem contains_is_monotone
    `{Setting} (n : nat) (ks further : list Key) (s : HashLinkListRep)
    (e : Key) :
  ThreeWay →
  distinct (ks ++ further) = true →
  InsertAll (HashLinkListRep_new n) ks = Ok s →
  Contains s e = Ok true →
  (∀ s', InsertAll s further = Ok s' → Contains s' e = Ok true) ∧
  (transformable further → ∃ s', InsertAll s further = Ok s').
Proof.
  intros HT Hd Hs He.
  destruct (run_Ordered HT n ks s (distinct_app_l _ _ Hd) Hs)
    as (ls & HI & Ho & Hb & Hk).
  assert (0 < bucket_size_ s) as Hpos.
  { unfold Contains in He.
    apply bind_Ok in He as (p & _ & He).
    apply bind_Ok in He as (hd & Hhd & _).
    unfold GetBucket, GetBucket_at in Hhd.
    destruct (buckets_ s !! GetHash s p) eqn:E; [|done].
    apply lookup_lt_Some in E. rewrite (inv_size _ _ HI) in E. lia. }
  assert (distinct ((concat ls).*2 ++ further) = true) as Hd'.
  { apply (distinct_perm HT (ks ++ further)); [|done]. by rewrite Hk. }
  assert (transformable further →
          ∃ s', InsertAll s further = Ok s' ∧ Contains s' e = Ok true) as Hrun.
  { intros Hdom.
    by apply (Contains_InsertAll_fresh HT further e s ls). }
  split.
  - intros s' Hs'.
    destruct (InsertAll_Ok_pre _ _ _ _ HI Hs') as [Hdom _].
    destruct (Hrun Hdom) as (s0 & Hs0 & He0).
    rewrite Hs' in Hs0. by injection Hs0 as <-.
  - intros Hdom. destruct (Hrun Hdom) as (s' & Hs' & _). by exists s'.
Qed.

(** ** The footprint of one Insert *)

Section FrameFacts.
Context `{Setting}.
Implicit Types (s : HashLinkListRep) (l : list (nat * Key)).
Implicit Types (ls : list (list (nat * Key))).

(** The node whose successor link [Insert] redirects, if any. *)
Lemma linked_arena s ls i k l1 l2 :
  Inv s ls → ls !! i = Some (l1 ++ l2) →
  let s' := linked s i k l1 l2 in
  let changed := fst <$> last l1 in
  length (arena_ s') = S (length (arena_ s)) ∧
  arena_ s' !! length (arena_ s) = Some {| key := k; next_ := ptr_head l2 |} ∧
  (∀ a nd, arena_ s !! a = Some nd →
     ∃ nd', arena_ s' !! a = Some nd' ∧ key nd' = key nd ∧
            (changed ≠ Some a → nd' = nd)) ∧
  (∀ c, changed = Some c → c ∈ (l1 ++ l2).*1).
Proof.
  intros HI Hi s' changed. subst s' changed. unfold linked. simpl.
  destruct (last l1) as [[a ka]|] eqn:Hlast; simpl.
  - assert ((a, ka) ∈ l1 ++ l2) as Hin.
    { apply elem_of_app. left. by apply last_Some_elem_of. }
    destruct (Inv_view _ _ _ _ HI Hi) as (hd & _ & Hc).
    destruct (Chain_lookup _ _ _ _ Hc Hin) as (n & Hn & Hk).
    simpl in Hn, Hk.
    assert (a < length (arena_ s)) as Hlt by by eapply lookup_lt_Some.
    split_and!.
    + rewrite length_app, length_insert. simpl. lia.
    + rewrite lookup_app_r by by rewrite length_insert.
      by rewrite length_insert, Nat.sub_diag.
    + intros b nd Hb.
      assert (b < length (arena_ s)) as Hltb by by eapply lookup_lt_Some.
      rewrite lookup_app_l by by rewrite length_insert.
      destruct (decide (a = b)) as [->|Hne].
      * rewrite list_lookup_insert_eq by done.
        eexists. split_and!; [done| |done]. simpl. congruence.
      * rewrite list_lookup_insert_ne by done.
        exists nd. by split_and!.
    + intros c [= <-]. apply list_elem_of_fmap. by exists (a, ka).
  - split_and!.
    + rewrite length_app. simpl. lia.
    + by apply list_lookup_middle.
    + intros b nd Hb. exists nd. split_and!; [|done..].
      by apply lookup_app_l_Some.
    + done.
Qed.
End FrameFacts.

(** C9: in a state reached by a run of inserts, [Insert key] changes only
    the bucket at index [hash(transform(user_key(key))) mod bucket_count]
    and the successor link of at most one existing node, which lies in that
    bucket: the bucket count, every other bucket head, every node of the
    other buckets and the key of every existing node are unchanged; one
    node, holding [key], is added. *)
Theorem Insert_frame
    `{Setting} (n : nat) (ks : list Key) (s s' : HashLinkListRep) (k : Key) :
  InsertAll (HashLinkListRep_new n) ks = Ok s →
  Insert s k = Ok s' →
  ∃ p (changed : option nat),
    Transform transform_ (UserKey k) = Ok p ∧
    let i := MurmurHash p 0 `mod` n in
    bucket_size_ s' = bucket_size_ s ∧
    length (buckets_ s') = length (buckets_ s) ∧
    (∀ j, j ≠ i → buckets_ s' !! j = buckets_ s !! j) ∧
    length (arena_ s') = S (length (arena_ s)) ∧
    (∃ nd, arena_ s' !! length (arena_ s) = Some nd ∧ key nd = k) ∧
    (∀ a nd, arena_ s !! a = Some nd →
       ∃ nd', arena_ s' !! a = Some nd' ∧ key nd' = key nd ∧
              (changed ≠ Some a → nd' = nd)) ∧
    (∀ c, changed = Some c →
       ∃ hd l, GetBucket_at s i = Ok hd ∧ Chain (arena_ s) hd l ∧ c ∈ l.*1) ∧
    (∀ j hd l, j ≠ i → GetBucket_at s j = Ok hd → Chain (arena_ s) hd l →
       Chain (arena_ s') hd l ∧
       ∀ x, x ∈ l → arena_ s' !! x.1 = arena_ s !! x.1).
Proof.
  intros Hs Hs'.
  destruct (run_Inv _ _ _ Hs) as (ls & HI & Hb & _).
  destruct (Insert_Ok _ _ _ _ HI Hs') as (p & l1 & l2 & Hp & Hi & _ & _ & ->).
  assert (GetHash s p = MurmurHash p 0 `mod` n) as Hh.
  { unfold GetHash. by rewrite Hb. }
  destruct (linked_arena s ls _ k l1 l2 HI Hi) as (A1 & A2 & A3 & A4).
  exists p, (fst <$> last l1). split; [done|]. cbv zeta. rewrite <- Hh.
  split_and!; try done.
  - simpl. destruct l1; [by rewrite length_insert | done].
  - intros j Hj. simpl. destruct l1; [|done].
    by rewrite list_lookup_insert_ne.
  - eexists. by split.
  - intros c Hc. destruct (Inv_view _ _ _ _ HI Hi) as (hd & Hhd & Hch).
    exists hd, (l1 ++ l2). split_and!; [done..|]. by apply A4.
  - intros j hd l Hj Hhd Hc.
    pose proof (Inv_view_inv _ _ _ _ _ HI Hhd Hc) as Hl.
    assert (∀ x, x ∈ l →
              arena_ (linked s (GetHash s p) k l1 l2) !! x.1 = arena_ s !! x.1)
      as Hsame.
    { intros x Hx.
      destruct (Chain_lookup _ _ _ _ Hc Hx) as (nd & Hnd & _).
      destruct (A3 _ _ Hnd) as (nd' & Hnd' & _ & Hsame).
      rewrite Hnd', Hnd, Hsame; [done|].
      intros Hch. apply Hj.
      apply A4 in Hch. apply list_elem_of_fmap in Hch as (y & Hy1 & Hy).
      by apply (inv_apart _ _ HI j (GetHash s p) l (l1 ++ l2) x y). }
    split; [|done]. by apply (Chain_ext (arena_ s)).
Qed.

(** ** The full-order snapshot *)

Section SnapshotFacts.
Context `{Setting}.
Implicit Types (s : HashLinkListRep) (l : list (nat * Key)).
Implicit Types (ls : list (list (nat * Key))).
Local Arguments Node_key : simpl never.
Local Arguments Node_Next : simpl never.
Local Arguments FullList_Insert : simpl never.

(** The inner loop of [GetIterator] feeds the entries of one bucket, in
    chain order, to the full-order list. *)
Lemma GetIterator_bucket_fill s hd : ∀ fuel l cur list,
  Chain (arena_ s) cur l → length l < fuel →
  GetIterator_bucket fuel s {| head_ := hd; node_ := cur |} list
  = FullList_fill list l.*2.
Proof.
  induction fuel as [|fuel IH]; intros l cur list Hc Hfuel; [lia|].
  destruct Hc as [|a n l Ha Hc]; simpl in *; [done|].
  unfold Iterator_key, Iterator_Next. simpl.
  rewrite !assert_pass by done. simpl.
  rewrite (Node_key_Some _ _ _ Ha), (Node_Next_Some _ _ _ Ha). simpl.
  destruct (FullList_Insert list (key n)) as [list'|]; simpl; [|done].
  apply IH; [done|lia].
Qed.

Lemma FullList_fill_app ks1 ks2 : ∀ list,
  FullList_fill list (ks1 ++ ks2)
  = list' ← FullList_fill list ks1; FullList_fill list' ks2.
Proof.
  induction ks1 as [|k ks1 IH]; intros list; simpl; [done|].
  destruct (FullList_Insert list k); simpl; [apply IH | done].
Qed.

Lemma GetIterator_buckets_cons s i slots list :
  GetIterator_buckets s (i :: slots) list
  = bucket ← GetBucket_at s i;
    list ← match bucket with
           | Some _ =>
               GetIterator_bucket (walk_fuel s) s
                 (Iterator_SeekToHead (Iterator_new bucket)) list
           | None => Ok list
           end;
    GetIterator_buckets s slots list.
Proof. done. Qed.

(** The outer loop visits the buckets in slot order. *)
Lemma GetIterator_buckets_fill s ls :
  Inv s ls →
  ∀ rest i list, drop i ls = rest →
    GetIterator_buckets s (seq i (length rest)) list
    = FullList_fill list (concat rest).*2.
Proof.
  intros HI. induction rest as [|l rest IH]; intros i list Hdrop; [done|].
  assert (ls !! i = Some l) as Hl.
  { rewrite <- (Nat.add_0_r i), <- lookup_drop, Hdrop. done. }
  assert (drop (S i) ls = rest) as Hrest.
  { replace (S i) with (i + 1) by lia.
    rewrite <- (drop_drop ls 1 i), Hdrop. done. }
  destruct (Inv_view _ _ _ _ HI Hl) as (hd & Hhd & Hc).
  change (seq i (length (l :: rest))) with (i :: seq (S i) (length rest)).
  change (concat (l :: rest)) with (l ++ concat rest).
  rewrite GetIterator_buckets_cons, Hhd, bind_Ok_l.
  rewrite fmap_app, FullList_fill_app.
  assert (match hd with
          | Some _ =>
              GetIterator_bucket (walk_fuel s) s
                (Iterator_SeekToHead (Iterator_new hd)) list
          | None => Ok list
          end = FullList_fill list l.*2) as ->.
  { destruct hd as [a|].
    - apply GetIterator_bucket_fill; [done|].
      pose proof (Chain_length _ _ _ Hc (inv_nodup _ _ HI _ _ Hl)).
      unfold walk_fuel. lia.
    - by apply Chain_null_inv in Hc as ->. }
  destruct (FullList_fill list l.*2) as [list'|]; simpl; [|done].
  by apply IH.
Qed.

Lemma GetIterator_fill s ls :
  Inv s ls →
  GetIterator s
  = list ← FullList_fill [] (concat ls).*2; Ok (FullListIterator_new list).
Proof.
  intros HI. unfold GetIterator.
  rewrite <- (Inv_slots _ _ HI).
  by rewrite (GetIterator_buckets_fill s ls HI ls 0 []).
Qed.

(** [SeekToFirst] and [Next] until invalid walk the whole list. *)
Lemma FullListIterator_visit_from (l : FullList) : ∀ fuel i,
  i < length l → length l - i < fuel →
  FullListIterator_visit fuel {| full_list_ := l; iter_ := Some i |}
  = Ok (drop i l).
Proof.
  induction fuel as [|fuel IH]; intros i Hi Hfuel; [lia|].
  destruct (lookup_lt_is_Some_2 _ _ Hi) as [k Hk].
  simpl. unfold FullListIterator_key, FullListIterator_Next. simpl.
  rewrite !assert_pass by done. simpl.
  replace (l !! i) with (Some k). simpl.
  rewrite (drop_S _ _ _ Hk).
  unfold FullList_next. case_decide as Hnext.
  - rewrite IH by lia. done.
  - destruct fuel; [lia|]. simpl. by rewrite drop_ge by lia.
Qed.

Lemma FullListIterator_scan_new (l : FullList) :
  FullListIterator_scan (FullListIterator_new l) = Ok l.
Proof.
  unfold FullListIterator_scan, FullListIterator_SeekToFirst,
    FullListIterator_new.
  cbn [full_list_ iter_].
  destruct l as [|k l]; [done|].
  change (FullList_first (k :: l)) with (Some 0).
  rewrite FullListIterator_visit_from; [done|simpl; lia..].
Qed.

Hypothesis three_way : ThreeWay.

Lemma FullList_Insert_sorted k : ∀ list : FullList,
  StronglySorted key_lt list →
  Forall (λ x, compare_ k x ≠ 0%Z) list →
  ∃ list', FullList_Insert list k = Ok list' ∧
    list' ≡ₚ k :: list ∧ StronglySorted key_lt list'.
Proof.
  induction list as [|k' list IH]; intros Hs Hne.
  - exists [k]. split_and!; [done..|]. repeat constructor.
  - apply StronglySorted_inv in Hs as [Hs Hk'].
    apply Forall_cons in Hne as [Hne' Hne].
    unfold FullList_Insert. fold FullList_Insert.
    destruct (compare_ k' k <? 0)%Z eqn:Hc.
    + apply Z.ltb_lt in Hc.
      destruct (IH Hs Hne) as (list' & -> & Hp & Hs').
      exists (k' :: list'). split_and!; [done| |].
      * by rewrite Hp, perm_swap.
      * constructor; [done|].
        apply (Permutation_Forall (Permutation_sym Hp)).
        constructor; [exact Hc | exact Hk'].
    + apply Z.ltb_ge in Hc.
      rewrite assert_pass.
      2:{ f_equal. by apply negb_true_iff, Equal_false. }
      exists (k :: k' :: list). split_and!; [done..|].
      assert (key_lt k k') as Hkk'.
      { apply (key_lt_total three_way); [|exact Hne'].
        unfold key_lt. lia. }
      constructor; [by constructor|]. constructor; [done|].
      eapply Forall_impl; [exact Hk'|]. intros z Hz.
      exact (key_lt_trans three_way k k' z Hkk' Hz).
Qed.

Lemma FullList_fill_sorted ks : ∀ list : FullList,
  StronglySorted key_lt list →
  distinct (list ++ ks) = true →
  ∃ list', FullList_fill list ks = Ok list' ∧
    list' ≡ₚ list ++ ks ∧ StronglySorted key_lt list'.
Proof.
  induction ks as [|k ks IH]; intros list Hs Hd.
  - exists list. by rewrite (right_id_L [] (++)).
  - destruct (FullList_Insert_sorted k list Hs) as (list1 & H1 & Hp1 & Hs1).
    { apply Forall_forall. intros x Hx.
      apply (compare_ne_sym three_way).
      apply (distinct_app _ _ x k Hd Hx). by left. }
    destruct (IH list1 Hs1) as (list' & H' & Hp' & Hs').
    { apply (distinct_perm three_way (list ++ k :: ks)); [|done].
      by rewrite Hp1, <- Permutation_middle. }
    exists list'. simpl. rewrite H1. simpl. split_and!; [done| |done].
    by rewrite Hp', Hp1, <- Permutation_middle.
Qed.
End SnapshotFacts.

(** C4: in a state reached by a run of non-duplicate inserts (no insert
    runs during the build: the state is fixed), [GetIterator()] returns a
    full-order iterator whose [SeekToFirst] followed by [Next] until it is
    invalid visits exactly the multiset of the inserted entries, in
    strictly increasing comparator order across all buckets; the run
    completes when the bucket count is positive and the keys are in the
    domain of the extractor. *)
Theorem full_order_iterator_visits_all_in_order
    `{Setting} (n : nat) (ks : list Key) :
  ThreeWay → distinct ks = true →
  (∀ s, InsertAll (HashLinkListRep_new n) ks = Ok s →
     ∃ it visited,
       GetIterator s = Ok it ∧
       FullListIterator_scan it = Ok visited ∧
       visited ≡ₚ ks ∧
       StronglySorted key_lt visited) ∧
  (0 < n → transformable ks →
     ∃ s, InsertAll (HashLinkListRep_new n) ks = Ok s).
Proof.
  intros HT Hd. split.
  - intros s Hs.
    destruct (run_Ordered HT n ks s Hd Hs) as (ls & HI & Ho & Hb & Hk).
    destruct (FullList_fill_sorted HT (concat ls).*2 [])
      as (full & Hfill & Hp & Hsorted); [constructor| |].
    { simpl. apply (distinct_perm HT ks); [by rewrite Hk | done]. }
    exists (FullListIterator_new full), full.
    split_and!; [| |by rewrite Hp, Hk|done].
    + by rewrite (GetIterator_fill s ls HI), Hfill.
    + apply FullListIterator_scan_new.
  - intros Hn Hdom.
    destruct (run_fresh HT n ks Hn Hdom Hd) as (s & _ & Hs & _). by exists s.
Qed.

(** ** Prefix iterators *)

Section IteratorFacts.
Context `{Setting}.

Lemma Iterator_Seek_reset (s : HashLinkListRep) (it : Iterator)
    (target : Slice) (mk : option Key) :
  Iterator_Seek s (Iterator_Reset it nullptr) target mk
  = Ok {| head_ := nullptr; node_ := nullptr |}.
Proof. done. Qed.

(** [DynamicIterator::Seek] does not look at the cursor it is given. *)
Lemma DynamicIterator_Seek_rehomes (s : HashLinkListRep) (it it' : Iterator)
    (target : Slice) (mk : option Key) :
  DynamicIterator_Seek s it target mk = DynamicIterator_Seek s it' target mk.
Proof. done. Qed.
End IteratorFacts.

(** C6 (as stated, refuted): a per-bucket prefix iterator over the bucket
    of ["abc"], positioned at ["abcX"] by [Seek], is invalid after [Prev]
    and after [SeekToFirst]; seeking ["abcX"] again leaves it invalid,
    because both calls also cleared the bucket head. *)
Lemma prefix_iterator_reseek_stays_invalid :
  let it0 := {| head_ := Some 2; node_ := None |} in
  let it1 := {| head_ := Some 2; node_ := Some 2 |} in
  let it2 := @Iterator_SeekToFirst (Iterator_Prev it1) in
  @InsertAll Bytewise.demo (HashLinkListRep_new 4) Bytewise.demo_keys
    = Ok Bytewise.demo_state ∧
  @GetPrefixIterator Bytewise.demo Bytewise.demo_state "abc"
    = Ok (PrefixIterator it0) ∧
  @Iterator_Seek Bytewise.demo Bytewise.demo_state it0 "abcX" None = Ok it1 ∧
  Iterator_Valid it1 = true ∧
  @Iterator_key Bytewise.demo Bytewise.demo_state it1 = Ok "abcX" ∧
  Iterator_Valid (Iterator_Prev it1) = false ∧
  Iterator_Valid it2 = false ∧
  (∃ it3, @Iterator_Seek Bytewise.demo Bytewise.demo_state it2 "abcX" None
          = Ok it3 ∧ Iterator_Valid it3 = false).
Proof.
  cbv zeta. split_and!; try reflexivity.
  eexists. split; reflexivity.
Qed.

(** C6 (amended): for every per-bucket prefix iterator positioned at a
    valid node by a [Seek] to some target, [Prev] leaves the iterator
    invalid and [SeekToFirst] leaves it invalid; both also reset its bucket
    head, so seeking the original target again leaves it invalid.  For the
    dynamic prefix iterator, whose [Seek] re-homes to the bucket of the
    target, seeking the original target again restores the valid
    position. *)
Theorem prefix_iterator_rejects_total_order_ops
    `{Setting} (s : HashLinkListRep) (it it1 : Iterator)
    (target : Slice) (mk : option Key) :
  Iterator_Seek s it target mk = Ok it1 →
  Iterator_Valid it1 = true →
  Iterator_Valid (Iterator_Prev it1) = false ∧
  Iterator_Valid (Iterator_SeekToFirst it1) = false ∧
  Iterator_Valid (Iterator_SeekToFirst (Iterator_Prev it1)) = false ∧
  (∀ it2, it2 = Iterator_Prev it1 ∨ it2 = Iterator_SeekToFirst it1 ∨
          it2 = Iterator_SeekToFirst (Iterator_Prev it1) →
     ∃ it3, Iterator_Seek s it2 target mk = Ok it3 ∧
            Iterator_Valid it3 = false) ∧
  (∀ dit dit1,
     DynamicIterator_Seek s dit target mk = Ok dit1 →
     Iterator_Valid dit1 = true →
     Iterator_Valid (Iterator_SeekToFirst (Iterator_Prev dit1)) = false ∧
     DynamicIterator_Seek s (Iterator_SeekToFirst (Iterator_Prev dit1))
       target mk = Ok dit1).
Proof.
  intros _ _. split_and!; [done..| |].
  - intros it2 [->|[->| ->]]; eexists; (split; [apply Iterator_Seek_reset|done]).
  - intros dit dit1 Hd _. split; [done|].
    by rewrite (DynamicIterator_Seek_rehomes s _ dit).
Qed.

Lemma prefix_iterator_rejects_total_order_ops_witness :
  let it1 := {| head_ := Some 2; node_ := Some 2 |} in
  @Iterator_Seek Bytewise.demo Bytewise.demo_state
    {| head_ := Some 2; node_ := None |} "abcX" None = Ok it1 ∧
  Iterator_Valid it1 = true ∧
  Iterator_Valid (Iterator_Prev it1) = false ∧
  Iterator_Valid (Iterator_SeekToFirst it1) = false ∧
  Iterator_Valid (Iterator_SeekToFirst (Iterator_Prev it1)) = false ∧
  (∀ it2, it2 = Iterator_Prev it1 ∨ it2 = Iterator_SeekToFirst it1 ∨
          it2 = Iterator_SeekToFirst (Iterator_Prev it1) →
     ∃ it3, @Iterator_Seek Bytewise.demo Bytewise.demo_state it2 "abcX" None
            = Ok it3 ∧
            Iterator_Valid it3 = false) ∧
  (∀ dit dit1,
     @DynamicIterator_Seek Bytewise.demo Bytewise.demo_state dit "abcX" None
       = Ok dit1 →
     Iterator_Valid dit1 = true →
     Iterator_Valid (Iterator_SeekToFirst (Iterator_Prev dit1)) = false ∧
     @DynamicIterator_Seek Bytewise.demo Bytewise.demo_state
       (Iterator_SeekToFirst (Iterator_Prev dit1)) "abcX" None = Ok dit1).
Proof.
  cbv zeta. split; [reflexivity|]. split; [reflexivity|].
  apply (@prefix_iterator_rejects_total_order_ops Bytewise.demo
           Bytewise.demo_state {| head_ := Some 2; node_ := None |}
           {| head_ := Some 2; node_ := Some 2 |} "abcX" None).
  - reflexivity.
  - reflexivity.
Defined.

(** C10: for every index state and every slice, [GetIterator(slice)] is
    [GetPrefixIterator(transform(slice))]: the empty, always invalid
    iterator when the bucket of the transformed slice is null, otherwise a
    per-bucket prefix iterator over that bucket head. *)
Theorem GetIterator_slice_refines_GetPrefixIterator
    `{Setting} (s : HashLinkListRep) (slice : Slice) :
  GetIterator_slice s slice
    = (prefix ← Transform transform_ slice; GetPrefixIterator s prefix) ∧
  (∀ prefix, GetPrefixIterator s prefix = prefix_iterator_spec s prefix) ∧
  GetIterator_slice s slice
    = (prefix ← Transform transform_ slice; prefix_iterator_spec s prefix) ∧
  Valid EmptyIterator = false ∧
  Next s EmptyIterator = Ok EmptyIterator ∧
  Prev EmptyIterator = Ok EmptyIterator ∧
  (∀ k mk, Seek s EmptyIterator k mk = Ok EmptyIterator) ∧
  SeekToFirst EmptyIterator = EmptyIterator ∧
  SeekToLast EmptyIterator = EmptyIterator.
Proof.
  assert (∀ prefix, GetPrefixIterator s prefix = prefix_iterator_spec s prefix)
    as Hspec.
  { intros prefix. unfold GetPrefixIterator, prefix_iterator_spec.
    destruct (GetBucket s prefix) as [[a|]|]; done. }
  split_and!; try done.
  unfold GetIterator_slice.
  destruct (Transform transform_ slice) as [prefix|]; simpl; [apply Hspec|done].
Qed.

(** ** The bytewise instance *)

Lemma Bytewise_three_way (nd : bool) (t : SliceTransform) :
  @ThreeWay (Bytewise.setting nd t).
Proof.
  split; simpl; unfold Bytewise.compare.
  - intros a b. rewrite (String.compare_antisym a b).
    destruct (String.compare b a); simpl; lia.
  - intros a b c.
    destruct (String.compare a b) eqn:Hab; [| |lia].
    + apply String.compare_eq_iff in Hab as ->. done.
    + destruct (String.compare b c) eqn:Hbc; [| |lia].
      * apply String.compare_eq_iff in Hbc as <-. by rewrite Hab.
      * intros _ _. apply String_as_OT.cmp_lt in Hab, Hbc.
        pose proof (String_as_OT.lt_trans _ _ _ Hab Hbc) as Hac.
        apply String_as_OT.cmp_lt in Hac.
        unfold String_as_OT.cmp in Hac. rewrite Hac. lia.
Qed.

Lemma Bytewise_separating (nd : bool) (t : SliceTransform) :
  @Separating (Bytewise.setting nd t).
Proof.
  intros a b. simpl. unfold Bytewise.compare.
  destruct (String.compare a b) eqn:Hab; [|done..].
  intros _. by apply String.compare_eq_iff.
Qed.

Lemma demo_transformable : @transformable Bytewise.demo Bytewise.demo_keys.
Proof. repeat constructor; by eexists. Qed.

Example demo_run :
  @InsertAll Bytewise.demo (HashLinkListRep_new 4) Bytewise.demo_keys
  = Ok Bytewise.demo_state.
Proof. reflexivity. Qed.

(** ** The theorems at the bytewise instance *)

Lemma buckets_strictly_increasing_witness :
  @ThreeWay Bytewise.demo ∧
  @distinct Bytewise.demo Bytewise.demo_keys = true ∧
  (∀ s, @InsertAll Bytewise.demo (HashLinkListRep_new 4) Bytewise.demo_keys
        = Ok s →
     ∀ i, i < 4 →
       ∃ hd l, GetBucket_at s i = Ok hd ∧ Chain (arena_ s) hd l ∧
               StronglySorted (@key_lt Bytewise.demo) l.*2) ∧
  (0 < 4 → @transformable Bytewise.demo Bytewise.demo_keys →
     ∃ s, @InsertAll Bytewise.demo (HashLinkListRep_new 4) Bytewise.demo_keys
          = Ok s).
Proof.
  split; [apply Bytewise_three_way|]. split; [reflexivity|].
  apply (@buckets_strictly_increasing Bytewise.demo 4 Bytewise.demo_keys).
  - apply Bytewise_three_way.
  - reflexivity.
Defined.

Lemma contains_exactly_the_inserted_witness :
  @ThreeWay Bytewise.demo ∧ 0 < 4 ∧
  @distinct Bytewise.demo Bytewise.demo_keys = true ∧
  (∀ e, e ∈ Bytewise.demo_keys →
     @Contains Bytewise.demo Bytewise.demo_state e = Ok true) ∧
  (∀ e', is_Ok (Transform (@transform_ Bytewise.demo)
                  (@UserKey Bytewise.demo e')) →
     e' ∉ Bytewise.demo_keys →
     @Contains Bytewise.demo Bytewise.demo_state e' = Ok false).
Proof.
  split; [apply Bytewise_three_way|]. split; [lia|]. split; [reflexivity|].
  destruct (@contains_exactly_the_inserted Bytewise.demo 4 Bytewise.demo_keys)
    as [Hafter _].
  - apply Bytewise_three_way.
  - lia.
  - reflexivity.
  - destruct (Hafter Bytewise.demo_state) as (Hin & _ & Hout & _).
    + reflexivity.
    + split; [exact Hin|]. apply Hout. apply Bytewise_separating.
Defined.

Lemma entries_live_in_the_slot_of_their_prefix_witness :
  @InsertAll Bytewise.demo (HashLinkListRep_new 4) Bytewise.demo_keys
    = Ok Bytewise.demo_state ∧
  ∃ sm,
    @InsertAll Bytewise.demo (HashLinkListRep_new 4) (take 2 Bytewise.demo_keys)
      = Ok sm ∧
    bucket_size_ sm = 4 ∧
    (∀ i hd l a k, GetBucket_at sm i = Ok hd → Chain (arena_ sm) hd l →
       (a, k) ∈ l →
       ∃ p, Transform (@transform_ Bytewise.demo) (@UserKey Bytewise.demo k)
            = Ok p ∧
            @MurmurHash Bytewise.demo p 0 `mod` 4 = i) ∧
    (∀ k, k ∈ take 2 Bytewise.demo_keys →
       ∃ p hd l a,
         Transform (@transform_ Bytewise.demo) (@UserKey Bytewise.demo k)
           = Ok p ∧
         GetBucket_at sm (@MurmurHash Bytewise.demo p 0 `mod` 4) = Ok hd ∧
         Chain (arena_ sm) hd l ∧ (a, k) ∈ l).
Proof.
  split; [reflexivity|].
  apply (@entries_live_in_the_slot_of_their_prefix Bytewise.demo 4
           Bytewise.demo_keys Bytewise.demo_state).
  reflexivity.
Defined.

Lemma full_order_iterator_visits_all_in_order_witness :
  @ThreeWay Bytewise.demo ∧
  @distinct Bytewise.demo Bytewise.demo_keys = true ∧
  (∀ s, @InsertAll Bytewise.demo (HashLinkListRep_new 4) Bytewise.demo_keys
        = Ok s →
     ∃ it visited,
       @GetIterator Bytewise.demo s = Ok it ∧
       @FullListIterator_scan Bytewise.demo it = Ok visited ∧
       visited ≡ₚ Bytewise.demo_keys ∧
       StronglySorted (@key_lt Bytewise.demo) visited) ∧
  (0 < 4 → @transformable Bytewise.demo Bytewise.demo_keys →
     ∃ s, @InsertAll Bytewise.demo (HashLinkListRep_new 4) Bytewise.demo_keys
          = Ok s).
Proof.
  split; [apply Bytewise_three_way|]. split; [reflexivity|].
  apply (@full_order_iterator_visits_all_in_order Bytewise.demo 4
           Bytewise.demo_keys).
  - apply Bytewise_three_way.
  - reflexivity.
Defined.

Example demo_full_order :
  (it ← @GetIterator Bytewise.demo Bytewise.demo_state;
   @FullListIterator_scan Bytewise.demo it)
  = Ok ["abcX"; "abcY"; "abdZ"].
Proof. reflexivity. Qed.

Lemma contains_is_monotone_witness :
  @ThreeWay Bytewise.demo ∧
  @distinct Bytewise.demo (Bytewise.demo_keys ++ ["abc0"; "xyzA"]) = true ∧
  @InsertAll Bytewise.demo (HashLinkListRep_new 4) Bytewise.demo_keys
    = Ok Bytewise.demo_state ∧
  @Contains Bytewise.demo Bytewise.demo_state "abcX" = Ok true ∧
  (∀ s', @InsertAll Bytewise.demo Bytewise.demo_state ["abc0"; "xyzA"] = Ok s' →
         @Contains Bytewise.demo s' "abcX" = Ok true) ∧
  (@transformable Bytewise.demo ["abc0"; "xyzA"] →
   ∃ s', @InsertAll Bytewise.demo Bytewise.demo_state ["abc0"; "xyzA"] = Ok s').
Proof.
  split; [apply Bytewise_three_way|]. split; [reflexivity|].
  split; [reflexivity|]. split; [reflexivity|].
  apply (@contains_is_monotone Bytewise.demo 4 Bytewise.demo_keys
           ["abc0"; "xyzA"] Bytewise.demo_state "abcX").
  - apply Bytewise_three_way.
  - reflexivity.
  - reflexivity.
  - reflexivity.
Defined.

Lemma Insert_frame_witness :
  let s' := {|
    bucket_size_ := 4;
    buckets_ := [None; None; Some 2; Some 1];
    arena_ := [ {| key := "abcY"; next_ := Some 3 |};
                {| key := "abdZ"; next_ := None |};
                {| key := "abcX"; next_ := Some 0 |};
                {| key := "abcZ"; next_ := None |} ] |} in
  @InsertAll Bytewise.demo (HashLinkListRep_new 4) Bytewise.demo_keys
    = Ok Bytewise.demo_state ∧
  @Insert Bytewise.demo Bytewise.demo_state "abcZ" = Ok s' ∧
  ∃ p (changed : option nat),
    Transform (@transform_ Bytewise.demo) (@UserKey Bytewise.demo "abcZ")
      = Ok p ∧
    let i := @MurmurHash Bytewise.demo p 0 `mod` 4 in
    bucket_size_ s' = bucket_size_ Bytewise.demo_state ∧
    length (buckets_ s') = length (buckets_ Bytewise.demo_state) ∧
    (∀ j, j ≠ i → buckets_ s' !! j = buckets_ Bytewise.demo_state !! j) ∧
    length (arena_ s') = S (length (arena_ Bytewise.demo_state)) ∧
    (∃ nd, arena_ s' !! length (arena_ Bytewise.demo_state) = Some nd ∧
           key nd = "abcZ") ∧
    (∀ a nd, arena_ Bytewise.demo_state !! a = Some nd →
       ∃ nd', arena_ s' !! a = Some nd' ∧ key nd' = key nd ∧
              (changed ≠ Some a → nd' = nd)) ∧
    (∀ c, changed = Some c →
       ∃ hd l, GetBucket_at Bytewise.demo_state i = Ok hd ∧
               Chain (arena_ Bytewise.demo_state) hd l ∧ c ∈ l.*1) ∧
    (∀ j hd l, j ≠ i → GetBucket_at Bytewise.demo_state j = Ok hd →
       Chain (arena_ Bytewise.demo_state) hd l →
       Chain (arena_ s') hd l ∧
       ∀ x, x ∈ l → arena_ s' !! x.1 = arena_ Bytewise.demo_state !! x.1).
Proof.
  cbv zeta. split; [reflexivity|]. split; [reflexivity|].
  apply (@Insert_frame Bytewise.demo 4 Bytewise.demo_keys
           Bytewise.demo_state _ "abcZ").
  - reflexivity.
  - reflexivity.
Defined.

(** ** Sample runs *)

Example scenario_fixed_prefix_buckets :
  @GetHash Bytewise.demo Bytewise.demo_state "abc" = 2 ∧
  @GetHash Bytewise.demo Bytewise.demo_state "abd" = 3 ∧
  @Contains Bytewise.demo Bytewise.demo_state "abcY" = Ok true ∧
  @Contains Bytewise.demo Bytewise.demo_state "abcZ" = Ok false ∧
  @Contains Bytewise.demo Bytewise.demo_state "xyzA" = Ok false.
Proof. by split_and!. Qed.

Example scenario_identity_extractor :
  (s ← @InsertAll (Bytewise.setting false NewNoopTransform)
         (HashLinkListRep_new 4) ["k1"; "k3"; "k2"];
   it ← @GetIterator (Bytewise.setting false NewNoopTransform) s;
   @FullListIterator_scan (Bytewise.setting false NewNoopTransform) it)
  = Ok ["k1"; "k2"; "k3"].
Proof. reflexivity. Qed.

Example duplicate_insert_debug :
  @InsertAll Bytewise.demo (HashLinkListRep_new 4) ["abcY"; "abcY"]
  = Fail AssertionFailed.
Proof. reflexivity. Qed.

Example duplicate_insert_release :
  @InsertAll (Bytewise.setting true (NewFixedPrefixTransform true 3))
    (HashLinkListRep_new 4) ["abcY"; "abcY"]
  = Ok {| bucket_size_ := 4;
          buckets_ := [None; None; Some 1; None];
          arena_ := [ {| key := "abcY"; next_ := None |};
                      {| key := "abcY"; next_ := Some 0 |} ] |}.
Proof. reflexivity. Qed.

Example no_bucket_is_undefined :
  @Insert Bytewise.demo (HashLinkListRep_new 0) "abcY" = Fail Undefined.
Proof. reflexivity. Qed.

Example dynamic_iterator_rehomes :
  (it ← @DynamicIterator_Seek Bytewise.demo Bytewise.demo_state
          DynamicIterator_new "abcX" None;
   it ← @DynamicIterator_Seek Bytewise.demo Bytewise.demo_state
          (Iterator_Prev it) "abdA" None;
   @Iterator_key Bytewise.demo Bytewise.demo_state it)
  = Ok "abdZ".
Proof. reflexivity. Qed.

(** * Further properties of the extractors *)

Lemma Slice_prefix_split (x : Slice) (n : nat) :
  n ≤ String.length x →
  String.length (Slice_prefix x n) = n ∧
  ∃ rest, x = Slice_prefix x n +:+ rest.
Proof.
  unfold Slice_prefix. revert n.
  induction x as [|c x IH]; intros [|n] Hn; simpl in *; try lia.
  - split; [done|]. by exists "".
  - split; [done|]. by exists (String c x).
  - destruct (IH n) as (Hlen & rest & Hrest); [lia|].
    split; [by rewrite Hlen|]. exists rest.
    change (String c x = String c (substring 0 n x +:+ rest)). by f_equal.
Qed.

Lemma checked_prefix_Ok (nd d : bool) (x p : Slice) (n : nat) :
  checked_prefix nd d x n = Ok p →
  n ≤ String.length x ∧ p = Slice_prefix x n.
Proof.
  unfold checked_prefix. intros (_ & _ & Hp)%bind_Ok.
  case_decide; [|done]. by injection Hp as <-.
Qed.

Lemma checked_prefix_in (nd : bool) (x : Slice) (n : nat) :
  n ≤ String.length x →
  checked_prefix nd true x n = Ok (Slice_prefix x n).
Proof.
  intros Hn. unfold checked_prefix. rewrite assert_pass by done. simpl.
  by rewrite decide_True.
Qed.

Lemma checked_prefix_out (nd : bool) (x : Slice) (n : nat) :
  ¬ n ≤ String.length x →
  checked_prefix nd false x n
  = Fail (if nd then Undefined else AssertionFailed).
Proof.
  intros Hn. unfold checked_prefix. destruct nd; simpl; [|done].
  by rewrite decide_False.
Qed.

Lemma string_of_length (n : nat) : ∃ s : string, String.length s = n.
Proof.
  induction n as [|n [s Hs]]; [by exists ""|].
  exists (String "x" s). simpl. by rewrite Hs.
Qed.



Lemma standard_transform_Ok
    (nd : bool) (t : SliceTransform) (x p : Slice) :
  standard nd t →
  Transform t x = Ok p →
  (∃ rest, x = p +:+ rest) ∧ InRange t p = true ∧ InDomain t x = true.
Proof.
  intros [k|k|]; simpl.
  - intros [Hk ->]%checked_prefix_Ok.
    destruct (Slice_prefix_split x k Hk) as (Hlen & rest & Hrest).
    split_and!; [by exists rest| |].
    + rewrite Hlen. apply Nat.eqb_refl.
    + by apply Nat.leb_le.
  - intros [Hk ->]%checked_prefix_Ok.
    destruct (Slice_prefix_split x _ Hk) as (Hlen & rest & Hrest).
    split_and!; [by exists rest| |done].
    rewrite Hlen. apply Nat.leb_le. lia.
  - intros [= ->]. split_and!; [|done..].
    exists "". clear. induction p as [|c p IH]; [done|].
    change (String c p = String c (p +:+ "")). by f_equal.
Qed.



(** X3: the standard extractors are idempotent: a slice returned by
    [Transform] is in the domain again and is its own transform. *)
Theorem standard_transform_idempotent
    (nd : bool) (t : SliceTransform) (x p : Slice) :
  standard nd t →
  Transform t x = Ok p →
  Transform t p = Ok p.
Proof.
  intros [k|k|]; simpl.
  - intros [Hk ->]%checked_prefix_Ok.
    destruct (Slice_prefix_split x k Hk) as (Hlen & _).
    rewrite Hlen, Nat.leb_refl, checked_prefix_in by lia.
    by rewrite <- Hlen at 2; rewrite Slice_prefix_all.
  - intros [Hk ->]%checked_prefix_Ok.
    destruct (Slice_prefix_split x _ Hk) as (Hlen & _).
    rewrite checked_prefix_in by lia. rewrite Hlen.
    replace (k `min` (k `min` String.length x))
      with (String.length (Slice_prefix x (k `min` String.length x)))
      by (rewrite Hlen; lia).
    by rewrite Slice_prefix_all.
  - done.
Qed.

Lemma standard_transform_idempotent_witness :
  standard false (NewFixedPrefixTransform false 3) ∧
  Transform (NewFixedPrefixTransform false 3) "abcX" = Ok "abc" ∧
  Transform (NewFixedPrefixTransform false 3) "abc" = Ok "abc".
Proof.
  split; [constructor|]. split; [reflexivity|].
  apply (standard_transform_idempotent false
           (NewFixedPrefixTransform false 3) "abcX" "abc").
  - constructor.
  - reflexivity.
Defined.

(** X4: for each standard extractor [InRange] accepts exactly the slices
    that [Transform] can return. *)
Theorem standard_in_range_iff_image
    (nd : bool) (t : SliceTransform) (dst : Slice) :
  standard nd t →
  (InRange t dst = true ↔ ∃ src, Transform t src = Ok dst).
Proof.
  intros Ht. split.
  - intros Hr. exists dst. destruct Ht as [k|k|]; simpl in *; [| |done].
    + apply Nat.eqb_eq in Hr. subst k.
      rewrite Nat.leb_refl, checked_prefix_in by lia.
      by rewrite Slice_prefix_all.
    + apply Nat.leb_le in Hr. rewrite checked_prefix_in by lia.
      replace (k `min` String.length dst) with (String.length dst) by lia.
      by rewrite Slice_prefix_all.
  - intros [src Hsrc].
    by destruct (standard_transform_Ok nd t src dst Ht Hsrc) as (_ & Hr & _).
Qed.

Lemma standard_in_range_iff_image_witness :
  standard false (NewFixedPrefixTransform false 3) ∧
  (InRange (NewFixedPrefixTransform false 3) "abcd" = true ↔
   ∃ src, Transform (NewFixedPrefixTransform false 3) src = Ok "abcd").
Proof.
  split; [constructor|].
  apply (standard_in_range_iff_image false
           (NewFixedPrefixTransform false 3) "abcd").
  constructor.
Defined.

(** X5: [SameResultWhenAppended] is exact for the standard extractors:
    when it answers false, some suffix does change the result of
    [Transform]. *)
Theorem same_result_when_appended_false_is_exact
    (nd : bool) (t : SliceTransform) (p : Slice) :
  standard nd t →
  SameResultWhenAppended t p = false →
  ∃ s, Transform t (p +:+ s) ≠ Transform t p.
Proof.
  intros [k|k|]; simpl.
  - intros Hk%Nat.leb_gt.
    destruct (string_of_length k) as [s Hs]. exists s.
    assert ((k <=? String.length (p +:+ s)) = true) as ->.
    { apply Nat.leb_le. rewrite String_length_append. lia. }
    assert ((k <=? String.length p) = false) as -> by by apply Nat.leb_gt.
    rewrite checked_prefix_in, checked_prefix_out; [done|lia|].
    rewrite String_length_append. lia.
  - intros Hk%Nat.leb_gt. exists "x".
    rewrite !checked_prefix_in by lia.
    intros [= Heq]. apply (f_equal String.length) in Heq.
    destruct (Slice_prefix_split (p +:+ "x")
                (Nat.min k (String.length (p +:+ "x")))) as [H1 _]; [lia|].
    destruct (Slice_prefix_split p (Nat.min k (String.length p)))
      as [H2 _]; [lia|].
    rewrite H1, H2, String_length_append in Heq. simpl in Heq. lia.
  - intros _. exists "x". intros [= Heq].
    apply (f_equal String.length) in Heq.
    rewrite String_length_append in Heq. simpl in Heq. lia.
Qed.

Lemma same_result_when_appended_false_is_exact_witness :
  standard false (NewCappedPrefixTransform false 4) ∧
  SameResultWhenAppended (NewCappedPrefixTransform false 4) "ab" = false ∧
  ∃ s, Transform (NewCappedPrefixTransform false 4) ("ab" +:+ s)
       ≠ Transform (NewCappedPrefixTransform false 4) "ab".
Proof.
  split; [constructor|]. split; [reflexivity|].
  apply (same_result_when_appended_false_is_exact false
           (NewCappedPrefixTransform false 4) "ab").
  - constructor.
  - reflexivity.
Defined.

(** * Further properties of the index *)

Section MoreIndexFacts.
Context `{Setting}.
Implicit Types (s : HashLinkListRep) (l : list (nat * Key)).
Implicit Types (ls : list (list (nat * Key))).

Lemma GetBucket_at_new n i :
  i < n → GetBucket_at (HashLinkListRep_new n) i = Ok nullptr.
Proof.
  intros Hi. unfold GetBucket_at. simpl. by rewrite lookup_replicate_2.
Qed.

(** The keys of the arena nodes, in allocation order, after one [Insert]. *)
Lemma linked_keys s ls i k l1 l2 :
  Inv s ls → ls !! i = Some (l1 ++ l2) →
  key <$> arena_ (linked s i k l1 l2) = (key <$> arena_ s) ++ [k].
Proof.
  intros HI Hi. unfold linked. simpl. rewrite fmap_app. f_equal.
  destruct (last l1) as [[a ka]|] eqn:Hlast; [|done].
  assert ((a, ka) ∈ l1 ++ l2) as Hin.
  { apply elem_of_app. left. by apply last_Some_elem_of. }
  destruct (Inv_view _ _ _ _ HI Hi) as (hd & _ & Hc).
  destruct (Chain_lookup _ _ _ _ Hc Hin) as (n & Hn & Hk). simpl in Hn, Hk.
  rewrite list_fmap_insert. simpl. apply list_insert_id.
  by rewrite list_lookup_fmap, Hn, <- Hk.
Qed.

Lemma InsertAll_keys ks : ∀ s ls s',
  Inv s ls → InsertAll s ks = Ok s' →
  key <$> arena_ s' = (key <$> arena_ s) ++ ks ∧
  length (buckets_ s') = length (buckets_ s).
Proof.
  induction ks as [|k ks IH]; intros s ls s' HI Hs'; simpl in Hs'.
  - injection Hs' as <-. by rewrite (right_id_L [] (++)).
  - apply bind_Ok in Hs' as (s1 & Hs1 & Hs').
    destruct (Insert_Ok _ _ _ _ HI Hs1) as (p & l1 & l2 & Hp & Hi & _ & _ & ->).
    pose proof (linked_Inv _ _ _ _ _ _ HI Hp Hi) as HI1.
    destruct (IH _ _ _ HI1 Hs') as [Hkeys Hlen].
    rewrite Hkeys, Hlen, (linked_keys _ _ _ _ _ _ HI Hi).
    rewrite <- (assoc_L (++)). split; [done|].
    simpl. destruct l1; [by rewrite length_insert | done].
Qed.

(** What [Insert] does to the chain of any bucket. *)
Lemma Insert_chains s ls k s' :
  Inv s ls → Insert s k = Ok s' →
  ∃ i l1 l2, ls !! i = Some (l1 ++ l2) ∧
    Inv s' (<[i := l1 ++ (length (arena_ s), k) :: l2]> ls) ∧
    (l1 = [] → ∀ hd, GetBucket_at s i = Ok hd → Chain (arena_ s') hd l2).
Proof.
  intros HI Hs'.
  destruct (Insert_Ok _ _ _ _ HI Hs') as (p & l1 & l2 & Hp & Hi & _ & _ & ->).
  exists (GetHash s p), l1, l2. split_and!; [done|by apply linked_Inv|].
  intros -> hd Hhd. simpl.
  pose proof (Inv_view_inv s ls (GetHash s p)) as Hv.
  destruct (Inv_view _ _ _ _ HI Hi) as (hd' & Hhd' & Hc).
  rewrite Hhd in Hhd'. injection Hhd' as <-.
  by apply Chain_grow.
Qed.

Lemma Chain_suffix (h : list Node) (lb : list (nat * Key)) : ∀ la (p : ptr),
  Chain h p (la ++ lb) → Chain h (ptr_head lb) lb.
Proof.
  induction la as [|x la IH]; intros p Hc; simpl in Hc.
  - by rewrite (Chain_head _ _ _ Hc).
  - inversion Hc; subst. by eapply IH.
Qed.

Lemma Iterator_visit_chain s hd : ∀ fuel l cur,
  Chain (arena_ s) cur l → length l < fuel →
  Iterator_visit fuel s {| head_ := hd; node_ := cur |} = Ok l.*2.
Proof.
  induction fuel as [|fuel IH]; intros l cur Hc Hfuel; [lia|].
  destruct Hc as [|a n l Ha Hc]; [done|].
  simpl in Hfuel.
  change (Iterator_visit (S fuel) s {| head_ := hd; node_ := Some a |})
    with (k ← Iterator_key s {| head_ := hd; node_ := Some a |};
          it ← Iterator_Next s {| head_ := hd; node_ := Some a |};
          ks ← Iterator_visit fuel s it; Ok (k :: ks)).
  unfold Iterator_key, Iterator_Next.
  rewrite !assert_pass by done.
  rewrite !bind_Ok_l. cbn [node_ head_].
  rewrite (Node_key_Some _ _ _ Ha), bind_Ok_l.
  rewrite (Node_Next_Some _ _ _ Ha), !bind_Ok_l.
  rewrite (IH l (next_ n)) by (done || lia). done.
Qed.

Lemma Iterator_key_chain s hd cur l :
  Chain (arena_ s) cur l →
  Iterator_key s {| head_ := hd; node_ := cur |}
  = match l with
    | [] => Fail (if NDEBUG then Undefined else AssertionFailed)
    | x :: _ => Ok x.2
    end.
Proof.
  unfold Iterator_key. destruct 1 as [|a n l Ha Hc]; simpl.
  - unfold assert_. by destruct NDEBUG.
  - rewrite assert_pass by done. simpl. by rewrite (Node_key_Some _ _ _ Ha).
Qed.

(** Which entries a bucket holds after a run. *)
Lemma bucket_members s ls ks i l :
  Inv s ls → (concat ls).*2 ≡ₚ ks → ls !! i = Some l →
  ∀ e, e ∈ l.*2 ↔
       e ∈ ks ∧ ∃ p, Transform transform_ (UserKey e) = Ok p ∧ GetHash s p = i.
Proof.
  intros HI Hk Hl e. split.
  - intros (x & -> & Hx)%list_elem_of_fmap. split.
    + rewrite <- Hk. apply list_elem_of_fmap. exists x. split; [done|].
      apply elem_of_concat_lookup. eauto.
    + by apply (inv_slot _ _ HI i l).
  - intros [He (p & Hp & Hi)]. rewrite <- Hk in He.
    apply list_elem_of_fmap in He as ([a e'] & -> & Hx). simpl in *.
    apply elem_of_concat_lookup in Hx as (j & l' & Hl' & Hx).
    destruct (inv_slot _ _ HI _ _ _ Hl' Hx) as (p' & Hp' & Hj). simpl in Hp'.
    rewrite Hp in Hp'. injection Hp' as <-.
    rewrite Hi in Hj. subst j. rewrite Hl in Hl'. injection Hl' as <-.
    apply list_elem_of_fmap. by exists (a, e').
Qed.
End MoreIndexFacts.

(** X6: a freshly constructed index with at least one bucket is empty:
    [Contains] is false for every key of the extractor's domain, every
    prefix gets the empty iterator, and the full-order iterator visits
    nothing. *)
Theorem fresh_index_is_empty `{Setting} (n : nat) :
  0 < n →
  (∀ k, is_Ok (Transform transform_ (UserKey k)) →
     Contains (HashLinkListRep_new n) k = Ok false) ∧
  (∀ prefix, GetPrefixIterator (HashLinkListRep_new n) prefix
             = Ok EmptyIterator) ∧
  (∃ it, GetIterator (HashLinkListRep_new n) = Ok it ∧
         FullListIterator_Valid (FullListIterator_SeekToFirst it) = false ∧
         FullListIterator_scan it = Ok []).
Proof.
  intros Hn.
  assert (∀ p, GetBucket (HashLinkListRep_new n) p = Ok nullptr) as Hb.
  { intros p. unfold GetBucket. apply GetBucket_at_new.
    unfold GetHash. simpl. apply Nat.mod_upper_bound. lia. }
  split_and!.
  - intros k [p Hp]. unfold Contains. by rewrite Hp, bind_Ok_l, Hb.
  - intros prefix. unfold GetPrefixIterator. by rewrite Hb.
  - exists (FullListIterator_new []).
    rewrite (GetIterator_fill _ _ (new_Inv n)), concat_replicate_nil.
    by split_and!.
Qed.

Lemma fresh_index_is_empty_witness :
  0 < 4 ∧
  (∀ k, is_Ok (Transform (@transform_ Bytewise.demo)
                 (@UserKey Bytewise.demo k)) →
     @Contains Bytewise.demo (HashLinkListRep_new 4) k = Ok false) ∧
  (∀ prefix, @GetPrefixIterator Bytewise.demo (HashLinkListRep_new 4) prefix
             = Ok EmptyIterator) ∧
  (∃ it, @GetIterator Bytewise.demo (HashLinkListRep_new 4) = Ok it ∧
         FullListIterator_Valid (FullListIterator_SeekToFirst it) = false ∧
         @FullListIterator_scan Bytewise.demo it = Ok []).
Proof.
  split; [lia|]. apply (@fresh_index_is_empty Bytewise.demo 4). lia.
Defined.

(** X7: after a run of inserts that returns, the arena holds exactly one
    node per insert, in insertion order, each still carrying the key it was
    created with; the bucket array keeps the size it was constructed
    with. *)
Theorem arena_records_the_inserts
    `{Setting} (n : nat) (ks : list Key) (s : HashLinkListRep) :
  InsertAll (HashLinkListRep_new n) ks = Ok s →
  key <$> arena_ s = ks ∧
  length (arena_ s) = length ks ∧
  length (buckets_ s) = n ∧ bucket_size_ s = n.
Proof.
  intros Hs.
  destruct (InsertAll_keys _ _ _ _ (new_Inv n) Hs) as [Hkeys Hlen].
  destruct (run_Inv _ _ _ Hs) as (ls & HI & Hb & _).
  simpl in Hkeys, Hlen. rewrite length_replicate in Hlen.
  split_and!; [done| |done..].
  by rewrite <- Hkeys, length_fmap.
Qed.

Lemma arena_records_the_inserts_witness :
  @InsertAll Bytewise.demo (HashLinkListRep_new 4) Bytewise.demo_keys
    = Ok Bytewise.demo_state ∧
  key <$> arena_ Bytewise.demo_state = Bytewise.demo_keys ∧
  length (arena_ Bytewise.demo_state) = length Bytewise.demo_keys ∧
  length (buckets_ Bytewise.demo_state) = 4 ∧
  bucket_size_ Bytewise.demo_state = 4.
Proof.
  split; [reflexivity|].
  apply (@arena_records_the_inserts Bytewise.demo 4 Bytewise.demo_keys
           Bytewise.demo_state).
  reflexivity.
Defined.

(** X8: [Insert] never unlinks a node: in a state reached by inserts,
    after one more [Insert] every bucket chain still contains the nodes it
    had, in the same order; exactly one chain has grown, by the one new
    node holding the key. *)
Theorem Insert_never_unlinks
    `{Setting} (n : nat) (ks : list Key) (s s' : HashLinkListRep) (k : Key) :
  InsertAll (HashLinkListRep_new n) ks = Ok s →
  Insert s k = Ok s' →
  ∃ i, i < n ∧
    ∀ j hd l, GetBucket_at s j = Ok hd → Chain (arena_ s) hd l →
      ∃ hd' l', GetBucket_at s' j = Ok hd' ∧ Chain (arena_ s') hd' l' ∧
        l `sublist_of` l' ∧
        (j ≠ i → l' = l) ∧
        (j = i → ∃ l1 l2, l = l1 ++ l2 ∧
                          l' = l1 ++ (length (arena_ s), k) :: l2).
Proof.
  intros Hs Hs'.
  destruct (run_Inv _ _ _ Hs) as (ls & HI & Hb & _).
  destruct (Insert_chains _ _ _ _ HI Hs') as (i & l1 & l2 & Hi & HI' & _).
  exists i. split.
  { apply lookup_lt_Some in Hi. by rewrite (Inv_slots _ _ HI), Hb in Hi. }
  intros j hd l Hhd Hc.
  pose proof (Inv_view_inv _ _ _ _ _ HI Hhd Hc) as Hl.
  destruct (decide (j = i)) as [->|Hne].
  - rewrite Hi in Hl. injection Hl as <-.
    destruct (Inv_view s' _ i (l1 ++ (length (arena_ s), k) :: l2) HI')
      as (hd' & Hhd' & Hc').
    { apply list_lookup_insert_eq. by eapply lookup_lt_Some. }
    exists hd', (l1 ++ (length (arena_ s), k) :: l2).
    split_and!; [done..| |done|by exists l1, l2].
    apply sublist_app; [done|]. by apply sublist_cons.
  - destruct (Inv_view s' _ j l HI') as (hd' & Hhd' & Hc').
    { by rewrite list_lookup_insert_ne. }
    exists hd', l. by split_and!.
Qed.

Lemma Insert_never_unlinks_witness :
  let s' := {|
    bucket_size_ := 4;
    buckets_ := [None; None; Some 2; Some 1];
    arena_ := [ {| key := "abcY"; next_ := Some 3 |};
                {| key := "abdZ"; next_ := None |};
                {| key := "abcX"; next_ := Some 0 |};
                {| key := "abcZ"; next_ := None |} ] |} in
  @InsertAll Bytewise.demo (HashLinkListRep_new 4) Bytewise.demo_keys
    = Ok Bytewise.demo_state ∧
  @Insert Bytewise.demo Bytewise.demo_state "abcZ" = Ok s' ∧
  ∃ i, i < 4 ∧
    ∀ j hd l, GetBucket_at Bytewise.demo_state j = Ok hd →
      Chain (arena_ Bytewise.demo_state) hd l →
      ∃ hd' l', GetBucket_at s' j = Ok hd' ∧ Chain (arena_ s') hd' l' ∧
        l `sublist_of` l' ∧
        (j ≠ i → l' = l) ∧
        (j = i → ∃ l1 l2, l = l1 ++ l2 ∧
                          l' = l1 ++ (length (arena_ Bytewise.demo_state),
                                      "abcZ") :: l2).
Proof.
  cbv zeta. split; [reflexivity|]. split; [reflexivity|].
  apply (@Insert_never_unlinks Bytewise.demo 4 Bytewise.demo_keys
           Bytewise.demo_state _ "abcZ").
  - reflexivity.
  - reflexivity.
Defined.

(** X9: in a debug build [Insert] refuses a duplicate: after a run of
    non-duplicate inserts, inserting one of the keys again trips the
    assertion [!Contains(key)] and returns no state. *)
Theorem duplicate_insert_aborts_in_debug
    `{Setting} (n : nat) (ks : list Key) (s : HashLinkListRep) (e : Key) :
  NDEBUG = false →
  ThreeWay → distinct ks = true →
  InsertAll (HashLinkListRep_new n) ks = Ok s →
  e ∈ ks →
  Insert s e = Fail AssertionFailed.
Proof.
  intros Hdebug HT Hd Hs He.
  destruct (run_Ordered HT n ks s Hd Hs) as (ls & HI & Ho & Hb & Hk).
  destruct (InsertAll_Ok_pre _ _ _ _ (new_Inv n) Hs) as [_ Hn].
  assert (Contains s e = Ok true) as Hc.
  { apply (Contains_true HT s ls); [done..| |by rewrite Hk].
    rewrite Hb. apply Hn. intros ->. by apply elem_of_nil in He. }
  unfold Insert, assert_. by rewrite Hdebug, Hc.
Qed.

Lemma duplicate_insert_aborts_in_debug_witness :
  @NDEBUG Bytewise.demo = false ∧
  @ThreeWay Bytewise.demo ∧
  @distinct Bytewise.demo Bytewise.demo_keys = true ∧
  @InsertAll Bytewise.demo (HashLinkListRep_new 4) Bytewise.demo_keys
    = Ok Bytewise.demo_state ∧
  "abdZ" ∈ Bytewise.demo_keys ∧
  @Insert Bytewise.demo Bytewise.demo_state "abdZ" = Fail AssertionFailed.
Proof.
  assert ("abdZ" ∈ Bytewise.demo_keys) as Hin by (right; left).
  split; [reflexivity|]. split; [apply Bytewise_three_way|].
  split; [reflexivity|]. split; [reflexivity|]. split; [exact Hin|].
  apply (@duplicate_insert_aborts_in_debug Bytewise.demo 4 Bytewise.demo_keys
           Bytewise.demo_state "abdZ").
  - reflexivity.
  - apply Bytewise_three_way.
  - reflexivity.
  - reflexivity.
  - exact Hin.
Defined.

(** ** Prefix scans *)

Section ScanFacts.
Context `{Setting}.
Hypothesis three_way : ThreeWay.
Implicit Types (s : HashLinkListRep) (l : list (nat * Key)).
Implicit Types (ls : list (list (nat * Key))).

Lemma key_lt_irrefl a : ¬ key_lt a a.
Proof. unfold key_lt. rewrite (compare_refl three_way). lia. Qed.

Lemma sorted_keys_NoDup (keys : list Key) :
  StronglySorted key_lt keys → NoDup keys.
Proof.
  induction 1 as [|k keys _ IH Hk]; constructor; [|done].
  intros Hin. rewrite Forall_forall in Hk.
  by apply (key_lt_irrefl k), Hk.
Qed.

Lemma rest_not_smaller l2 target :
  StronglySorted key_lt l2.*2 →
  (∀ x, head l2 = Some x → ¬ key_lt x.2 target) →
  Forall (λ x, ¬ key_lt x.2 target) l2.
Proof.
  intros Hs Hhd. destruct l2 as [|y l2]; [done|].
  assert (¬ key_lt y.2 target) as Hy by by apply Hhd.
  constructor; [done|].
  rewrite fmap_cons in Hs. apply StronglySorted_inv in Hs as [_ Hs].
  apply Forall_forall. intros z Hz Hzt. apply Hy.
  apply (key_lt_trans three_way _ z.2); [|done].
  rewrite Forall_forall in Hs. apply Hs, list_elem_of_fmap. by exists z.
Qed.

(** [Seek] and the scan that follows it, on the bucket at slot [i]. *)
Lemma seek_scan s ls ks i hd l nd ik mk :
  Inv s ls → Ordered ls → (concat ls).*2 ≡ₚ ks →
  ls !! i = Some l → Chain (arena_ s) hd l →
  ∃ it' visited,
    Iterator_Seek s {| head_ := hd; node_ := nd |} ik mk = Ok it' ∧
    head_ it' = hd ∧
    Iterator_scan s it' = Ok visited ∧
    (Iterator_Valid it' = true ↔ visited ≠ []) ∧
    (∀ v vs, visited = v :: vs → Iterator_key s it' = Ok v) ∧
    StronglySorted key_lt visited ∧
    ∀ e, e ∈ visited ↔
         e ∈ ks ∧
         (∃ p, Transform transform_ (UserKey e) = Ok p ∧ GetHash s p = i) ∧
         ¬ key_lt e (encoded_key ik mk).
Proof.
  intros HI Ho Hk Hl Hc. set (target := encoded_key ik mk).
  destruct (walk_Ok s ls i hd l target HI Ho Hl Hc)
    as (l1 & l2 & -> & H1 & H2 & _ & HF).
  pose proof (Ordered_lookup _ _ _ Ho Hl) as Hs.
  rewrite fmap_app in Hs.
  pose proof (StronglySorted_app_1_r _ _ _ Hs) as Hs2.
  pose proof (rest_not_smaller l2 target Hs2 H2) as H2'.
  exists {| head_ := hd; node_ := ptr_head l2 |}, l2.*2.
  split_and!.
  - unfold Iterator_Seek. cbn [head_]. fold target. by rewrite HF.
  - done.
  - apply Iterator_visit_chain; [by eapply Chain_suffix|].
    pose proof (Inv_fuel _ _ _ _ HI Hl) as Hf.
    rewrite length_app in Hf. lia.
  - by destruct l2.
  - intros v vs Hv.
    rewrite (Iterator_key_chain s hd _ l2); [|by eapply Chain_suffix].
    destruct l2 as [|x l2]; [done|]. by injection Hv as <- _.
  - done.
  - intros e. pose proof (bucket_members s ls ks i _ HI Hk Hl e) as Hmem.
    rewrite fmap_app, elem_of_app in Hmem. split.
    + intros He. destruct Hmem as [[Hin Hslot] _]; [by right|].
      split_and!; [done..|].
      apply list_elem_of_fmap in He as (x & -> & Hx).
      rewrite Forall_forall in H2'. by apply H2'.
    + intros (Hin & Hslot & Hne).
      destruct Hmem as [_ [He|He]]; [done| |done]. exfalso. apply Hne.
      apply list_elem_of_fmap in He as (x & -> & Hx).
      rewrite Forall_forall in H1. by apply H1.
Qed.
End ScanFacts.

(** X10: after a run of inserts into an index with at least one bucket,
    [GetPrefixIterator] hands out the empty iterator exactly for the
    prefixes whose slot holds no inserted entry. *)
Theorem empty_iterator_iff_slot_is_empty
    `{Setting} (n : nat) (ks : list Key) (s : HashLinkListRep)
    (prefix : Slice) :
  0 < n →
  InsertAll (HashLinkListRep_new n) ks = Ok s →
  (GetPrefixIterator s prefix = Ok EmptyIterator ↔
   ∀ e p, e ∈ ks → Transform transform_ (UserKey e) = Ok p →
          GetHash s p ≠ GetHash s prefix).
Proof.
  intros Hn Hs.
  destruct (run_Inv _ _ _ Hs) as (ls & HI & Hb & Hk).
  assert (GetHash s prefix < length ls) as Hlt.
  { rewrite (Inv_slots _ _ HI), Hb. unfold GetHash. rewrite Hb.
    apply Nat.mod_upper_bound. lia. }
  apply lookup_lt_is_Some in Hlt as [l Hl].
  destruct (Inv_view _ _ _ _ HI Hl) as (hd & Hhd & Hc).
  pose proof (bucket_members s ls ks _ l HI Hk Hl) as Hmem.
  unfold GetPrefixIterator, GetBucket. rewrite Hhd, bind_Ok_l.
  split.
  - intros Hempty e p He Hp Hslot.
    destruct hd as [a|]; [done|]. apply Chain_null_inv in Hc as ->.
    assert (e ∈ ([] : list (nat * Key)).*2) as Hin by (apply Hmem; eauto).
    by apply elem_of_nil in Hin.
  - intros Hnone. destruct hd as [a|]; [|done]. exfalso.
    inversion Hc as [|a' nd l' Ha Hc' E1 E2]; subst.
    assert (key nd ∈ ((a, key nd) :: l').*2) as Hin by left.
    apply Hmem in Hin as [He (p & Hp & Hslot)].
    by apply (Hnone _ _ He Hp).
Qed.

Lemma empty_iterator_iff_slot_is_empty_witness :
  0 < 4 ∧
  @InsertAll Bytewise.demo (HashLinkListRep_new 4) Bytewise.demo_keys
    = Ok Bytewise.demo_state ∧
  (@GetPrefixIterator Bytewise.demo Bytewise.demo_state "xyz"
     = Ok EmptyIterator ↔
   ∀ e p, e ∈ Bytewise.demo_keys →
          Transform (@transform_ Bytewise.demo) (@UserKey Bytewise.demo e)
            = Ok p →
          @GetHash Bytewise.demo Bytewise.demo_state p
          ≠ @GetHash Bytewise.demo Bytewise.demo_state "xyz").
Proof.
  split; [lia|]. split; [reflexivity|].
  apply (@empty_iterator_iff_slot_is_empty Bytewise.demo 4 Bytewise.demo_keys
           Bytewise.demo_state "xyz").
  - lia.
  - reflexivity.
Defined.

(** X11: after a run of non-duplicate inserts, a per-bucket prefix
    iterator that is seeked to a target and then advanced with [Next] until
    it is invalid visits, in strictly increasing order, exactly the
    inserted entries whose prefix hashes to the slot of the iterator's
    prefix and that are not smaller than the target: entries of colliding
    prefixes are returned too, no entry of the slot is missed. *)
Theorem prefix_scan_visits_the_slot_from_the_target
    `{Setting} (n : nat) (ks : list Key) (s : HashLinkListRep)
    (prefix : Slice) (it : Iterator) (ik : Slice) (mk : option Key) :
  ThreeWay → distinct ks = true →
  InsertAll (HashLinkListRep_new n) ks = Ok s →
  GetPrefixIterator s prefix = Ok (PrefixIterator it) →
  ∃ it' visited,
    Iterator_Seek s it ik mk = Ok it' ∧
    Iterator_scan s it' = Ok visited ∧
    (Iterator_Valid it' = true ↔ visited ≠ []) ∧
    (∀ v vs, visited = v :: vs → Iterator_key s it' = Ok v) ∧
    StronglySorted key_lt visited ∧
    ∀ e, e ∈ visited ↔
         e ∈ ks ∧
         (∃ p, Transform transform_ (UserKey e) = Ok p ∧
               GetHash s p = GetHash s prefix) ∧
         ¬ key_lt e (encoded_key ik mk).
Proof.
  intros HT Hd Hs Hit.
  destruct (run_Ordered HT n ks s Hd Hs) as (ls & HI & Ho & Hb & Hk).
  unfold GetPrefixIterator in Hit.
  apply bind_Ok in Hit as (hd & Hhd & Hit).
  destruct hd as [a|]; [|done]. injection Hit as <-.
  unfold GetBucket, GetBucket_at in Hhd.
  destruct (buckets_ s !! GetHash s prefix) as [hd|] eqn:Hbk; [|done].
  injection Hhd as ->.
  destruct (Inv_bucket _ _ _ _ HI Hbk) as (l & Hl & Hc).
  destruct (seek_scan HT s ls ks _ (Some a) l nullptr ik mk HI Ho Hk Hl Hc)
    as (it' & visited & H1 & _ & H2 & H3 & H4 & H5 & H6).
  by exists it', visited.
Qed.

Lemma prefix_scan_visits_the_slot_from_the_target_witness :
  @ThreeWay Bytewise.demo ∧
  @distinct Bytewise.demo Bytewise.demo_keys = true ∧
  @InsertAll Bytewise.demo (HashLinkListRep_new 4) Bytewise.demo_keys
    = Ok Bytewise.demo_state ∧
  @GetPrefixIterator Bytewise.demo Bytewise.demo_state "abc"
    = Ok (PrefixIterator {| head_ := Some 2; node_ := None |}) ∧
  ∃ it' visited,
    @Iterator_Seek Bytewise.demo Bytewise.demo_state
      {| head_ := Some 2; node_ := None |} "abcY" None = Ok it' ∧
    @Iterator_scan Bytewise.demo Bytewise.demo_state it' = Ok visited ∧
    (Iterator_Valid it' = true ↔ visited ≠ []) ∧
    (∀ v vs, visited = v :: vs →
       @Iterator_key Bytewise.demo Bytewise.demo_state it' = Ok v) ∧
    StronglySorted (@key_lt Bytewise.demo) visited ∧
    ∀ e, e ∈ visited ↔
         e ∈ Bytewise.demo_keys ∧
         (∃ p, Transform (@transform_ Bytewise.demo)
                 (@UserKey Bytewise.demo e) = Ok p ∧
               @GetHash Bytewise.demo Bytewise.demo_state p
               = @GetHash Bytewise.demo Bytewise.demo_state "abc") ∧
         ¬ @key_lt Bytewise.demo e
             (@encoded_key Bytewise.demo "abcY" None).
Proof.
  split; [apply Bytewise_three_way|]. split; [reflexivity|].
  split; [reflexivity|]. split; [reflexivity|].
  apply (@prefix_scan_visits_the_slot_from_the_target Bytewise.demo 4
           Bytewise.demo_keys Bytewise.demo_state "abc").
  - apply Bytewise_three_way.
  - reflexivity.
  - reflexivity.
  - reflexivity.
Defined.

(** X12: after a run of non-duplicate inserts into an index with at least
    one bucket, a dynamic prefix iterator seeked to a slice of the
    extractor's domain, wherever it stood before, re-homes to the slot of
    the slice's prefix; advancing it with [Next] until it is invalid visits,
    in strictly increasing order, exactly the inserted entries of that slot
    that are not smaller than the target. *)
Theorem dynamic_scan_visits_the_slot_of_the_target
    `{Setting} (n : nat) (ks : list Key) (s : HashLinkListRep)
    (it : Iterator) (k p : Slice) (mk : option Key) :
  ThreeWay → distinct ks = true → 0 < n →
  InsertAll (HashLinkListRep_new n) ks = Ok s →
  Transform transform_ k = Ok p →
  ∃ it' visited,
    DynamicIterator_Seek s it k mk = Ok it' ∧
    GetBucket s p = Ok (head_ it') ∧
    Iterator_scan s it' = Ok visited ∧
    (Iterator_Valid it' = true ↔ visited ≠ []) ∧
    (∀ v vs, visited = v :: vs → Iterator_key s it' = Ok v) ∧
    StronglySorted key_lt visited ∧
    ∀ e, e ∈ visited ↔
         e ∈ ks ∧
         (∃ q, Transform transform_ (UserKey e) = Ok q ∧
               GetHash s q = GetHash s p) ∧
         ¬ key_lt e (encoded_key k mk).
Proof.
  intros HT Hd Hn Hs Hp.
  destruct (run_Ordered HT n ks s Hd Hs) as (ls & HI & Ho & Hb & Hk).
  assert (GetHash s p < length ls) as Hlt.
  { rewrite (Inv_slots _ _ HI), Hb. unfold GetHash. rewrite Hb.
    apply Nat.mod_upper_bound. lia. }
  apply lookup_lt_is_Some in Hlt as [l Hl].
  destruct (Inv_view _ _ _ _ HI Hl) as (hd & Hhd & Hc).
  destruct (seek_scan HT s ls ks _ hd l nullptr k mk HI Ho Hk Hl Hc)
    as (it' & visited & H1 & H0 & H2 & H3 & H4 & H5 & H6).
  exists it', visited. split_and!; try done.
  - unfold DynamicIterator_Seek, GetBucket.
    by rewrite Hp, bind_Ok_l, Hhd, bind_Ok_l.
  - by rewrite H0.
Qed.

Lemma dynamic_scan_visits_the_slot_of_the_target_witness :
  @ThreeWay Bytewise.demo ∧
  @distinct Bytewise.demo Bytewise.demo_keys = true ∧ 0 < 4 ∧
  @InsertAll Bytewise.demo (HashLinkListRep_new 4) Bytewise.demo_keys
    = Ok Bytewise.demo_state ∧
  Transform (@transform_ Bytewise.demo) "abcY" = Ok "abc" ∧
  ∃ it' visited,
    @DynamicIterator_Seek Bytewise.demo Bytewise.demo_state
      {| head_ := Some 1; node_ := Some 1 |} "abcY" None = Ok it' ∧
    @GetBucket Bytewise.demo Bytewise.demo_state "abc" = Ok (head_ it') ∧
    @Iterator_scan Bytewise.demo Bytewise.demo_state it' = Ok visited ∧
    (Iterator_Valid it' = true ↔ visited ≠ []) ∧
    (∀ v vs, visited = v :: vs →
       @Iterator_key Bytewise.demo Bytewise.demo_state it' = Ok v) ∧
    StronglySorted (@key_lt Bytewise.demo) visited ∧
    ∀ e, e ∈ visited ↔
         e ∈ Bytewise.demo_keys ∧
         (∃ q, Transform (@transform_ Bytewise.demo)
                 (@UserKey Bytewise.demo e) = Ok q ∧
               @GetHash Bytewise.demo Bytewise.demo_state q
               = @GetHash Bytewise.demo Bytewise.demo_state "abc") ∧
         ¬ @key_lt Bytewise.demo e
             (@encoded_key Bytewise.demo "abcY" None).
Proof.
  split; [apply Bytewise_three_way|]. split; [reflexivity|].
  split; [lia|]. split; [reflexivity|]. split; [reflexivity|].
  apply (@dynamic_scan_visits_the_slot_of_the_target Bytewise.demo 4
           Bytewise.demo_keys Bytewise.demo_state
           {| head_ := Some 1; node_ := Some 1 |} "abcY" "abc" None).
  - apply Bytewise_three_way.
  - reflexivity.
  - lia.
  - reflexivity.
  - reflexivity.
Defined.

Example demo_prefix_scan :
  (it ← @Iterator_Seek Bytewise.demo Bytewise.demo_state
          {| head_ := Some 2; node_ := None |} "abc" None;
   @Iterator_scan Bytewise.demo Bytewise.demo_state it)
  = Ok ["abcX"; "abcY"].
Proof. reflexivity. Qed.

(** ** Insertion order and positioned iterators *)

Section StabilityFacts.
Context `{Setting}.
Implicit Types (s : HashLinkListRep) (l : list (nat * Key)).
Implicit Types (ls : list (list (nat * Key))).

Lemma ptr_head_app_nonempty (m l2 : list (nat * Key)) :
  m ≠ [] → ptr_head (m ++ l2) = ptr_head m.
Proof. by destruct m. Qed.

(** The nodes that follow a node of some bucket, before and after an
    [Insert]: the same nodes, with the new node among them unless it went
    in front of that node or into another bucket. *)
Lemma linked_rest s ls i k p l1 l2 j la lb :
  Inv s ls →
  Transform transform_ (UserKey k) = Ok p → i = GetHash s p →
  ls !! i = Some (l1 ++ l2) →
  ls !! j = Some (la ++ lb) →
  ∃ lb', Chain (arena_ (linked s i k l1 l2)) (ptr_head lb) lb' ∧
         length lb' < walk_fuel (linked s i k l1 l2) ∧
         ptr_head lb' = ptr_head lb ∧
         (lb' = lb ∨
          ∃ b1 b2, lb = b1 ++ b2 ∧ lb' = b1 ++ (length (arena_ s), k) :: b2).
Proof.
  intros HI Hp -> Hi Hj.
  pose proof (linked_Inv _ _ _ _ _ _ HI Hp Hi) as HI'.
  set (s' := linked s (GetHash s p) k l1 l2) in *.
  set (x := (length (arena_ s), k)) in *.
  assert (GetHash s p < length ls) as Hlt by by eapply lookup_lt_Some.
  assert (∀ full a b, <[GetHash s p := l1 ++ x :: l2]> ls !! j = Some full →
            full = a ++ b →
            Chain (arena_ s') (ptr_head b) b ∧ length b < walk_fuel s') as Hsuf.
  { intros full a b Hl' ->.
    destruct (Inv_view _ _ _ _ HI' Hl') as (hd' & _ & Hc').
    split; [by eapply Chain_suffix|].
    pose proof (Inv_fuel _ _ _ _ HI' Hl') as Hf.
    rewrite length_app in Hf. lia. }
  destruct (decide (j = GetHash s p)) as [->|Hne].
  - rewrite Hi in Hj. injection Hj as Hj. symmetry in Hj.
    assert (<[GetHash s p := l1 ++ x :: l2]> ls !! GetHash s p
            = Some (l1 ++ x :: l2)) as Hnew by by apply list_lookup_insert_eq.
    apply app_eq_inv in Hj as [(m & -> & Hm)|(m & Hm & ->)].
    + exists lb.
      destruct (Hsuf _ (l1 ++ x :: m) lb Hnew) as [Hc' Hf].
      { rewrite Hm. by rewrite <- (assoc_L (++)). }
      split_and!; [done..|by left].
    + destruct m as [|y m].
      * exists l2.
        destruct (Hsuf _ (l1 ++ [x]) l2 Hnew) as [Hc' Hf].
        { by rewrite <- (assoc_L (++)). }
        split_and!; [done..|by left].
      * exists ((y :: m) ++ x :: l2).
        destruct (Hsuf _ la ((y :: m) ++ x :: l2) Hnew) as [Hc' Hf].
        { rewrite Hm. by rewrite <- (assoc_L (++)). }
        split_and!; [done..|]. right. by exists (y :: m), l2.
  - exists lb.
    assert (<[GetHash s p := l1 ++ x :: l2]> ls !! j = Some (la ++ lb)) as Hold
      by by rewrite list_lookup_insert_ne.
    destruct (Hsuf _ la lb Hold eq_refl) as [Hc' Hf].
    split_and!; [done..|by left].
Qed.

End StabilityFacts.

(** X13: the contents of the buckets do not depend on the order of the
    inserts: two runs that insert the same pairwise non-equal keys in
    different orders leave, in every bucket, the same sequence of keys. *)
Theorem bucket_contents_ignore_insertion_order
    `{Setting} (n : nat) (ks1 ks2 : list Key) (s1 s2 : HashLinkListRep) :
  ThreeWay → distinct ks1 = true → ks1 ≡ₚ ks2 →
  InsertAll (HashLinkListRep_new n) ks1 = Ok s1 →
  InsertAll (HashLinkListRep_new n) ks2 = Ok s2 →
  ∀ i hd1 l1 hd2 l2,
    GetBucket_at s1 i = Ok hd1 → Chain (arena_ s1) hd1 l1 →
    GetBucket_at s2 i = Ok hd2 → Chain (arena_ s2) hd2 l2 →
    l1.*2 = l2.*2.
Proof.
  intros HT Hd1 Hperm Hs1 Hs2 i hd1 l1 hd2 l2 Hhd1 Hc1 Hhd2 Hc2.
  pose proof (distinct_perm HT _ _ Hperm Hd1) as Hd2.
  destruct (run_Ordered HT n ks1 s1 Hd1 Hs1) as (ls1 & HI1 & Ho1 & Hb1 & Hk1).
  destruct (run_Ordered HT n ks2 s2 Hd2 Hs2) as (ls2 & HI2 & Ho2 & Hb2 & Hk2).
  pose proof (Inv_view_inv _ _ _ _ _ HI1 Hhd1 Hc1) as Hl1.
  pose proof (Inv_view_inv _ _ _ _ _ HI2 Hhd2 Hc2) as Hl2.
  pose proof (Ordered_lookup _ _ _ Ho1 Hl1) as Hsorted1.
  pose proof (Ordered_lookup _ _ _ Ho2 Hl2) as Hsorted2.
  apply (StronglySorted_unique_strong key_lt); [|done..|].
  - intros x1 x2 _ _ H12 H21.
    destruct (key_lt_irrefl HT x1). by apply (key_lt_trans HT _ x2).
  - apply NoDup_Permutation; [by apply (sorted_keys_NoDup HT)..|].
    intros e.
    rewrite (bucket_members s1 ls1 ks1 i l1 HI1 Hk1 Hl1 e).
    rewrite (bucket_members s2 ls2 ks2 i l2 HI2 Hk2 Hl2 e).
    unfold GetHash. rewrite Hb1, Hb2. by rewrite Hperm.
Qed.

Lemma bucket_contents_ignore_insertion_order_witness :
  @ThreeWay Bytewise.demo ∧
  @distinct Bytewise.demo Bytewise.demo_keys = true ∧
  Bytewise.demo_keys ≡ₚ ["abcX"; "abcY"; "abdZ"] ∧
  @InsertAll Bytewise.demo (HashLinkListRep_new 4) Bytewise.demo_keys
    = Ok Bytewise.demo_state ∧
  ∃ s2, @InsertAll Bytewise.demo (HashLinkListRep_new 4)
          ["abcX"; "abcY"; "abdZ"] = Ok s2 ∧
    ∀ i hd1 l1 hd2 l2,
      GetBucket_at Bytewise.demo_state i = Ok hd1 →
      Chain (arena_ Bytewise.demo_state) hd1 l1 →
      GetBucket_at s2 i = Ok hd2 → Chain (arena_ s2) hd2 l2 →
      l1.*2 = l2.*2.
Proof.
  assert (Bytewise.demo_keys ≡ₚ ["abcX"; "abcY"; "abdZ"]) as Hperm.
  { symmetry. apply (Permutation_cons_append ["abcY"; "abdZ"] "abcX"). }
  split; [apply Bytewise_three_way|]. split; [reflexivity|].
  split; [exact Hperm|]. split; [reflexivity|].
  eexists. split; [reflexivity|].
  apply (@bucket_contents_ignore_insertion_order Bytewise.demo 4
           Bytewise.demo_keys ["abcX"; "abcY"; "abdZ"]).
  - apply Bytewise_three_way.
  - reflexivity.
  - exact Hperm.
  - reflexivity.
  - reflexivity.
Defined.

(** X14: a positioned prefix iterator survives an [Insert]: if an iterator
    over a bucket head was seeked before the insert, then after the insert
    it stands at the same key, and advancing it with [Next] until it is
    invalid visits the entries it would have visited before, in the same
    order, with at most the new key among them. *)
Theorem positioned_iterator_survives_insert
    `{Setting} (n : nat) (ks : list Key) (s s' : HashLinkListRep)
    (j : nat) (it0 it : Iterator) (ik : Slice) (mk : option Key) (k : Key) :
  InsertAll (HashLinkListRep_new n) ks = Ok s →
  GetBucket_at s j = Ok (head_ it0) →
  Iterator_Seek s it0 ik mk = Ok it →
  Insert s k = Ok s' →
  ∃ visited visited',
    Iterator_scan s it = Ok visited ∧
    Iterator_scan s' it = Ok visited' ∧
    Iterator_key s' it = Iterator_key s it ∧
    visited `sublist_of` visited' ∧
    (visited' = visited ∨
     ∃ v1 v2, visited = v1 ++ v2 ∧ visited' = v1 ++ k :: v2).
Proof.
  intros Hs Hhd Hseek Hs'.
  destruct (run_Inv _ _ _ Hs) as (ls & HI & Hb & _).
  unfold GetBucket_at in Hhd.
  destruct (buckets_ s !! j) as [hd|] eqn:Hbk; [|done]. injection Hhd as Hhd.
  destruct (Inv_bucket _ _ _ _ HI Hbk) as (l & Hl & Hc).
  unfold Iterator_Seek, FindGreaterOrEqualInBucket in Hseek.
  rewrite (Find_loop_Insert_loop _ _ _ _ nullptr) in Hseek.
  apply bind_Ok in Hseek as (nd & Hfind & [= <-]).
  apply bind_Ok in Hfind as ([pv cur] & Hloop & [= <-]).
  rewrite <- Hhd in Hloop.
  destruct (Insert_loop_Ok _ _ _ _ _ _ _ _ Hc Hloop)
    as (la & lb & -> & _ & _ & [= _ ->]).
  destruct (Insert_Ok _ _ _ _ HI Hs') as (p & l1 & l2 & Hp & Hi & _ & _ & ->).
  destruct (linked_rest s ls _ k p l1 l2 j la lb HI Hp eq_refl Hi Hl)
    as (lb' & Hc' & Hf' & Hhead & Hcase).
  pose proof (Chain_suffix _ _ _ _ Hc) as Hcb.
  exists lb.*2, lb'.*2. split_and!.
  - apply Iterator_visit_chain; [done|].
    pose proof (Inv_fuel _ _ _ _ HI Hl) as Hf. rewrite length_app in Hf. lia.
  - by apply Iterator_visit_chain.
  - rewrite (Iterator_key_chain _ _ _ _ Hc'), (Iterator_key_chain _ _ _ _ Hcb).
    destruct Hcase as [->|(b1 & b2 & -> & ->)]; [done|].
    destruct b1 as [|y b1]; [|done].
    simpl in Hhead. destruct b2 as [|z b2]; simpl in *; [done|].
    injection Hhead as Hbad.
    pose proof (Chain_bound _ _ _ z Hcb) as Hlt.
    specialize (Hlt ltac:(by left)). lia.
  - destruct Hcase as [->|(b1 & b2 & -> & ->)]; [done|].
    rewrite !fmap_app, fmap_cons.
    apply sublist_app; [done|]. by apply sublist_cons.
  - destruct Hcase as [->|(b1 & b2 & -> & ->)]; [by left|right].
    exists b1.*2, b2.*2. by rewrite !fmap_app, fmap_cons.
Qed.

Lemma positioned_iterator_survives_insert_witness :
  let s' := {|
    bucket_size_ := 4;
    buckets_ := [None; None; Some 2; Some 1];
    arena_ := [ {| key := "abcY"; next_ := Some 3 |};
                {| key := "abdZ"; next_ := None |};
                {| key := "abcX"; next_ := Some 0 |};
                {| key := "abcZ"; next_ := None |} ] |} in
  let it0 := {| head_ := Some 2; node_ := None |} in
  let it := {| head_ := Some 2; node_ := Some 0 |} in
  @InsertAll Bytewise.demo (HashLinkListRep_new 4) Bytewise.demo_keys
    = Ok Bytewise.demo_state ∧
  GetBucket_at Bytewise.demo_state 2 = Ok (head_ it0) ∧
  @Iterator_Seek Bytewise.demo Bytewise.demo_state it0 "abcY" None = Ok it ∧
  @Insert Bytewise.demo Bytewise.demo_state "abcZ" = Ok s' ∧
  ∃ visited visited',
    @Iterator_scan Bytewise.demo Bytewise.demo_state it = Ok visited ∧
    @Iterator_scan Bytewise.demo s' it = Ok visited' ∧
    @Iterator_key Bytewise.demo s' it
      = @Iterator_key Bytewise.demo Bytewise.demo_state it ∧
    visited `sublist_of` visited' ∧
    (visited' = visited ∨
     ∃ v1 v2, visited = v1 ++ v2 ∧ visited' = v1 ++ "abcZ" :: v2).
Proof.
  cbv zeta. split; [reflexivity|]. split; [reflexivity|].
  split; [reflexivity|]. split; [reflexivity|].
  apply (@positioned_iterator_survives_insert Bytewise.demo 4
           Bytewise.demo_keys Bytewise.demo_state _ 2
           {| head_ := Some 2; node_ := None |} _ "abcY" None "abcZ").
  - reflexivity.
  - reflexivity.
  - reflexivity.
  - reflexivity.
Defined.



(** ** Round trips and release builds *)

Section ReleaseFacts.
Context `{Setting}.
Implicit Types (s : HashLinkListRep) (l : list (nat * Key)).
Implicit Types (ls : list (list (nat * Key))).
Local Arguments Node_key : simpl never.
Local Arguments Node_SetNext : simpl never.
Local Arguments Insert_loop : simpl never.

(** With the assertions compiled out, [Insert] returns for every key of the
    extractor's domain, fresh or not. *)
Lemma Insert_returns_release s ls k :
  NDEBUG = true →
  Inv s ls → 0 < bucket_size_ s →
  is_Ok (Transform transform_ (UserKey k)) →
  is_Ok (Insert s k).
Proof.
  intros Hnd HI Hpos [p Hp]. unfold Insert, assert_. rewrite Hnd.
  rewrite bind_Ok_l, Hp, bind_Ok_l. cbv zeta.
  assert (GetHash s p < length ls) as Hlt.
  { rewrite (Inv_slots _ _ HI). unfold GetHash. apply Nat.mod_upper_bound. lia. }
  apply lookup_lt_is_Some in Hlt as [l Hl].
  destruct (Inv_view _ _ _ _ HI Hl) as (hd & Hhd & Hc).
  rewrite Hhd, bind_Ok_l.
  assert (GetHash s p < length (buckets_ s)) as Hlt.
  { unfold GetBucket_at in Hhd.
    destruct (buckets_ s !! GetHash s p) eqn:E; [|done].
    by eapply lookup_lt_Some. }
  pose proof (NewNode_SetNext s k) as HS. unfold NewNode in HS. simpl in HS.
  destruct hd as [a0|].
  - destruct (Insert_loop_total (walk_fuel s) s (Some a0) k l nullptr (Some a0) Hc)
      as [[pv cur] Hr]; [by eapply Inv_fuel | by left |].
    destruct (Insert_loop_Ok _ _ _ _ _ _ _ _ Hc Hr)
      as (l1 & l2 & -> & _ & _ & [= -> ->]).
    rewrite Hr, bind_Ok_l. simpl. rewrite HS. simpl.
    unfold ptr_last. destruct (last l1) as [[a ka]|] eqn:Hlast.
    + assert ((a, ka) ∈ l1 ++ l2) as Hin.
      { apply elem_of_app. left. by apply last_Some_elem_of. }
      destruct (Chain_lookup _ _ _ _ Hc Hin) as (n & Hn & Hk).
      erewrite Node_SetNext_Some; [by eexists|].
      simpl. by apply lookup_app_l_Some.
    + unfold SetBucket_at. simpl. rewrite decide_True by done. by eexists.
  - simpl. rewrite HS. simpl.
    unfold SetBucket_at. simpl. rewrite decide_True by done. by eexists.
Qed.

Hypothesis three_way : ThreeWay.

(** In a strictly increasing bucket the first node that is not smaller
    than an entry of the bucket is that entry. *)
Lemma first_not_smaller_is_entry (l1 l2 : list (nat * Key)) (x : nat * Key) :
  StronglySorted key_lt (l1 ++ l2).*2 →
  Forall (λ y, key_lt y.2 x.2) l1 →
  (∀ y, head l2 = Some y → ¬ key_lt y.2 x.2) →
  x ∈ l1 ++ l2 →
  ∃ rest, l2 = x :: rest.
Proof.
  intros Hs H1 H2 [Hx|Hx]%elem_of_app.
  - rewrite Forall_forall in H1.
    destruct (key_lt_irrefl three_way x.2). by apply (H1 x).
  - destruct l2 as [|y l2]; [by apply elem_of_nil in Hx|].
    apply elem_of_cons in Hx as [->|Hx]; [by exists l2|]. exfalso.
    apply (H2 y eq_refl).
    rewrite fmap_app in Hs. apply StronglySorted_app_1_r in Hs.
    rewrite fmap_cons in Hs. apply StronglySorted_inv in Hs as [_ Hs].
    rewrite Forall_forall in Hs. apply Hs, list_elem_of_fmap. by exists x.
Qed.
End ReleaseFacts.

(** X16: in a release build [Insert] accepts a duplicate: after a run of
    non-duplicate inserts, inserting one of the keys again returns, links
    the new node directly in front of the node that already holds the key,
    and leaves that bucket no longer strictly increasing. *)
Theorem duplicate_insert_in_release_breaks_order
    `{Setting} (n : nat) (ks : list Key) (s : HashLinkListRep) (e : Key) :
  NDEBUG = true →
  ThreeWay → distinct ks = true →
  InsertAll (HashLinkListRep_new n) ks = Ok s →
  e ∈ ks →
  ∃ s' p hd l1 a rest,
    Insert s e = Ok s' ∧
    Transform transform_ (UserKey e) = Ok p ∧
    GetBucket s' p = Ok hd ∧
    Chain (arena_ s') hd (l1 ++ (length (arena_ s), e) :: (a, e) :: rest) ∧
    ¬ StronglySorted key_lt
        (l1 ++ (length (arena_ s), e) :: (a, e) :: rest).*2.
Proof.
  intros Hnd HT Hd Hs He.
  destruct (run_Ordered HT n ks s Hd Hs) as (ls & HI & Ho & Hb & Hk).
  destruct (InsertAll_Ok_pre _ _ _ _ (new_Inv n) Hs) as [Hdom Hn].
  assert (0 < bucket_size_ s) as Hpos.
  { rewrite Hb. apply Hn. intros ->. by apply elem_of_nil in He. }
  rewrite <- Hk in He.
  apply list_elem_of_fmap in He as ([a e'] & -> & Hx). simpl.
  apply elem_of_concat_lookup in Hx as (i & l & Hl & Hx).
  destruct (inv_slot _ _ HI _ _ _ Hl Hx) as (p & Hp & <-). simpl in Hp.
  destruct (Insert_returns_release s ls e' Hnd HI Hpos) as [s' Hs'];
    [by exists p|].
  destruct (Insert_Ok _ _ _ _ HI Hs') as (p' & l1 & l2 & Hp' & Hi & H1 & H2 & ->).
  rewrite Hp in Hp'. injection Hp' as <-.
  rewrite Hl in Hi. injection Hi as ->.
  destruct (first_not_smaller_is_entry HT l1 l2 (a, e')) as [rest ->];
    [by eapply Ordered_lookup|done..|].
  pose proof (linked_Inv _ _ _ _ _ _ HI Hp Hl) as HI'.
  destruct (Inv_view _ _ (GetHash s p)
              (l1 ++ (length (arena_ s), e') :: (a, e') :: rest) HI')
    as (hd & Hhd & Hc).
  { apply list_lookup_insert_eq. by eapply lookup_lt_Some. }
  exists (linked s (GetHash s p) e' l1 ((a, e') :: rest)), p, hd, l1, a, rest.
  split_and!; [done|done|exact Hhd|exact Hc|].
  rewrite fmap_app, !fmap_cons. intros Hsorted.
  apply StronglySorted_app_1_r, StronglySorted_inv in Hsorted as [_ Hsorted].
  apply Forall_cons in Hsorted as [Hsorted _].
  by apply (key_lt_irrefl HT e').
Qed.

Lemma duplicate_insert_in_release_breaks_order_witness :
  let release := Bytewise.setting true (NewFixedPrefixTransform true 3) in
  @NDEBUG release = true ∧
  @ThreeWay release ∧
  @distinct release Bytewise.demo_keys = true ∧
  @InsertAll release (HashLinkListRep_new 4) Bytewise.demo_keys
    = Ok Bytewise.demo_state ∧
  "abcY" ∈ Bytewise.demo_keys ∧
  ∃ s' p hd l1 a rest,
    @Insert release Bytewise.demo_state "abcY" = Ok s' ∧
    Transform (@transform_ release) (@UserKey release "abcY") = Ok p ∧
    @GetBucket release s' p = Ok hd ∧
    Chain (arena_ s') hd
      (l1 ++ (length (arena_ Bytewise.demo_state), "abcY")
          :: (a, "abcY") :: rest) ∧
    ¬ StronglySorted (@key_lt release)
        (l1 ++ (length (arena_ Bytewise.demo_state), "abcY")
            :: (a, "abcY") :: rest).*2.
Proof.
  cbv zeta.
  assert ("abcY" ∈ Bytewise.demo_keys) as Hin by left.
  split; [reflexivity|]. split; [apply Bytewise_three_way|].
  split; [reflexivity|]. split; [reflexivity|]. split; [exact Hin|].
  apply (@duplicate_insert_in_release_breaks_order
           (Bytewise.setting true (NewFixedPrefixTransform true 3))
           4 Bytewise.demo_keys Bytewise.demo_state "abcY").
  - reflexivity.
  - apply Bytewise_three_way.
  - reflexivity.
  - reflexivity.
  - exact Hin.
Defined.


